(** * Harbor main process: acquisition pipeline, profile store, launcher

    A shallow embedding of the Electron main-process script of the Harbor
    game launcher (the module that imports [electron], [webtorrent], [fs]
    and [child_process]), and the properties of its specification that can
    be settled on that embedding.

    Layout: the embedding comes first, one module per component
    ([Js] values, [Locator], [Progress], [ProfileStore], [Extraction],
    [Transfer], [Launch]); the lemmas and theorems follow. *)

From Stdlib Require Import Sorted Ascii.
From stdpp Require Import gmap strings list fin_maps pretty.

Set Warnings "-register-all".
Local Open Scope Z_scope.

(* ===================================================================== *)
(** * Part I: the embedding                                                *)
(* ===================================================================== *)

(** ** The executable locator: [findExecutable] *)

Module Locator.

(** Paths are kept as their list of segments; [path.join(directory, name)]
    with a name returned by [readdirSync] appends one segment. *)
Definition path := list string.

Definition path_join (directory : path) (name : string) : path :=
  directory ++ [name].

(** What [fs.readdirSync(directory, { withFileTypes: true })] yields for
    a directory and everything below it.  [ReadError] is a directory on
    which [readdirSync] throws.  [Other] is an entry for which both
    [isFile()] and [isDirectory()] are false (a symbolic link, a socket,
    ...). *)
Inductive dirent : Type :=
  | File (name : string)
  | Directory (name : string) (contents : readdir_result)
  | Other (name : string)
with readdir_result : Type :=
  | ReadError
  | Entries (files : list dirent).

Definition dirent_name (file : dirent) : string :=
  match file with
  | File name | Directory name _ | Other name => name
  end.

Definition isFile (file : dirent) : bool :=
  match file with File _ => true | _ => false end.

Definition isDirectory (file : dirent) : bool :=
  match file with Directory _ _ => true | _ => false end.

(** [String.prototype.toLowerCase] on the ASCII range: the letters
    [A]..[Z] are mapped to [a]..[z], every other byte is kept. *)
Definition ascii_toLowerCase (c : Ascii.ascii) : Ascii.ascii :=
  let n := Ascii.N_of_ascii c in
  if ((65 <=? n) && (n <=? 90))%N then Ascii.ascii_of_N (n + 32) else c.

Fixpoint toLowerCase (s : string) : string :=
  match s with
  | EmptyString => EmptyString
  | String c rest => String (ascii_toLowerCase c) (toLowerCase rest)
  end.

(** [file.name.toLowerCase() === targetExe.toLowerCase()] *)
Definition name_matches (name targetExe : string) : bool :=
  bool_decide (toLowerCase name = toLowerCase targetExe).

(** The first loop of [findExecutable]: the first entry of the listing
    that is a regular file with a matching name. *)
Fixpoint direct_match (directory : path) (files : list dirent)
    (targetExe : string) : option path :=
  match files with
  | [] => None
  | file :: rest =>
      if isFile file && name_matches (dirent_name file) targetExe
      then Some (path_join directory (dirent_name file))
      else direct_match directory rest targetExe
  end.

(** [findExecutable(directory, targetExe)]: the whole body sits in a
    [try] whose handler returns [null]; the only statement that can throw
    is the directory read.  The second loop recurses into the
    sub-directories in listing order and returns the first truthy result
    (a joined path is never the empty string). *)
Fixpoint findExecutable (directory : path) (listing : readdir_result)
    (targetExe : string) {struct listing} : option path :=
  match listing with
  | ReadError => None
  | Entries files =>
      match direct_match directory files targetExe with
      | Some filePath => Some filePath
      | None =>
          (fix subdirectories (l : list dirent) : option path :=
             match l with
             | [] => None
             | Directory name contents :: rest =>
                 match findExecutable (path_join directory name) contents
                         targetExe with
                 | Some execFile => Some execFile
                 | None => subdirectories rest
                 end
             | _ :: rest => subdirectories rest
             end) files
      end
  end.

(** The second loop as a function of its own, for stating lemmas. *)
Fixpoint subdirectories (directory : path) (l : list dirent)
    (targetExe : string) : option path :=
  match l with
  | [] => None
  | Directory name contents :: rest =>
      match findExecutable (path_join directory name) contents targetExe with
      | Some execFile => Some execFile
      | None => subdirectories directory rest targetExe
      end
  | _ :: rest => subdirectories directory rest targetExe
  end.

(** Every regular file of the tree whose name matches, reachable through
    readable directories, in depth-first listing order.  This is the
    specification-side notion of "a match"; it is not part of the
    program. *)
Fixpoint all_matches (directory : path) (listing : readdir_result)
    (targetExe : string) {struct listing} : list path :=
  match listing with
  | ReadError => []
  | Entries files =>
      (fix each (l : list dirent) : list path :=
         match l with
         | [] => []
         | File name :: rest =>
             (if name_matches name targetExe
              then [path_join directory name] else []) ++ each rest
         | Directory name contents :: rest =>
             all_matches (path_join directory name) contents targetExe
               ++ each rest
         | Other _ :: rest => each rest
         end) files
  end.

Fixpoint matches_of_entries (directory : path) (l : list dirent)
    (targetExe : string) : list path :=
  match l with
  | [] => []
  | File name :: rest =>
      (if name_matches name targetExe
       then [path_join directory name] else [])
        ++ matches_of_entries directory rest targetExe
  | Directory name contents :: rest =>
      all_matches (path_join directory name) contents targetExe
        ++ matches_of_entries directory rest targetExe
  | Other _ :: rest => matches_of_entries directory rest targetExe
  end.

(** Depth of a path below the searched root: a file directly in the root
    has depth 0. *)
Definition depth_below (root p : path) : nat :=
  (length p - length root - 1)%nat.

(** The specification's reading of the search: the result is a match of
    minimal depth. *)
Definition shallowest_match_wins (root : path) (listing : readdir_result)
    (targetExe : string) : Prop :=
  ∀ p, findExecutable root listing targetExe = Some p →
    ∀ q, q ∈ all_matches root listing targetExe →
      (depth_below root p ≤ depth_below root q)%nat.

(** A tree in which the first sub-directory holds the target two levels
    down and the second holds it one level down. *)
Definition deep_first_tree : readdir_result :=
  Entries
    [ Directory "a" (Entries [ Directory "b" (Entries [ File "Terraria.exe" ]) ]);
      Directory "c" (Entries [ File "terraria.exe" ]) ].

End Locator.

(** ** JavaScript values as this program sees them *)

Module Js.

(** The values [JSON.parse] produces, which are also the values the
    profile store keeps and writes.  Numbers are doubles; the ones this
    program computes with are whole numbers (seconds of playtime,
    levels), and [JNum n] is the double whose value is the integer [n].
    Objects are finite maps from property names to values.  [undefined]
    is not a JSON value: a property read yields an [option json], with
    [None] for [undefined]. *)
Inductive json : Type :=
  | JNull
  | JBool (b : bool)
  | JNum (n : Z)
  | JStr (s : string)
  | JArr (elements : list json)
  | JObj (properties : gmap string json).

(** A completion: the value of an expression, or the error it throws. *)
Inductive completion (A : Type) : Type :=
  | Normal (a : A)
  | Throw (error : string).
Arguments Normal {A} a.
Arguments Throw {A} error.

#[export] Instance completion_ret : MRet completion := @Normal.
#[export] Instance completion_bind : MBind completion :=
  λ A B f c, match c with Normal a => f a | Throw e => Throw e end.

(** [ToBoolean]. *)
Definition truthy (v : option json) : bool :=
  match v with
  | None | Some JNull => false
  | Some (JBool b) => b
  | Some (JNum n) => negb (n =? 0)
  | Some (JStr s) => negb (String.eqb s "")
  | Some (JArr _) | Some (JObj _) => true
  end.

(** [a || d] with a defined right operand. *)
Definition js_or (a : option json) (d : json) : json :=
  match a with
  | Some v => if truthy a then v else d
  | None => d
  end.

(** [typeof v === 'object']: true of [null], of arrays and of objects. *)
Definition typeof_object (v : option json) : bool :=
  match v with
  | Some JNull | Some (JArr _) | Some (JObj _) => true
  | _ => false
  end.

Definition isArray (v : option json) : bool :=
  match v with Some (JArr _) => true | _ => false end.

(** [v.name] for the property names this program reads ([library],
    [user], [extractionPaths], [playtime], [id], [name], [level],
    [picture], [expositors], [execTarget]): none of them is a built-in
    property of an array, a string, a number or a boolean, so on those
    the read is [undefined]; on [null] it throws. *)
Definition get_prop (v : json) (name : string) : completion (option json) :=
  match v with
  | JNull => Throw "TypeError: Cannot read properties of null"
  | JObj properties => Normal (properties !! name)
  | _ => Normal None
  end.

(** [v.name = x] in an ES module, which is strict code: on [null] and on
    a primitive the assignment throws.  On an array the property is
    created on the array object, where [JSON.stringify] does not see it
    and no code of this program reads it. *)
Definition set_prop (v : json) (name : string) (x : json) : completion json :=
  match v with
  | JNull => Throw "TypeError: Cannot set properties of null"
  | JBool _ | JNum _ | JStr _ => Throw "TypeError: Cannot create property"
  | JArr elements => Normal (JArr elements)
  | JObj properties => Normal (JObj (<[name := x]> properties))
  end.

(** [ToString], as string concatenation applies it to its left operand. *)
Fixpoint js_toString (v : json) : string :=
  match v with
  | JNull => "null"
  | JBool true => "true"
  | JBool false => "false"
  | JNum n => pretty n
  | JStr s => s
  | JArr elements =>
      (fix join (l : list json) : string :=
         match l with
         | [] => ""
         | [x] => match x with JNull => "" | _ => js_toString x end
         | x :: rest =>
             match x with JNull => "" | _ => js_toString x end
               +:+ "," +:+ join rest
         end) elements
  | JObj _ => "[object Object]"
  end.

(** [Number.isSafeInteger]: the integers of magnitude below 2^53, which
    doubles hold and add without rounding. *)
Definition safe_integer (z : Z) : Prop := Z.abs z < 2 ^ 53.

#[export] Instance safe_integer_dec z : Decision (safe_integer z).
Proof. unfold safe_integer. apply _. Defined.

(** The double nearest to the integer [z], as IEEE 754 arithmetic rounds
    a sum (to nearest, ties to the even significand): an integer
    of at most 53 bits is a double; of a longer one the 53 leading bits
    are kept and the rest is rounded away, so that 2^53 + 1 becomes
    2^53 and 2^53 + 3 becomes 2^53 + 4.  (A sum of 2^1024 or more would
    overflow to [Infinity]; it takes a term of 2^970 or more to get
    there from a double, which no difference of two clock readings
    is.) *)
Definition to_double (z : Z) : Z :=
  let a := Z.abs z in
  if a <? 2 ^ 53 then z
  else
    let shift := Z.log2 a - 52 in
    let q := Z.shiftr a shift in
    let r := Z.land a (Z.ones shift) in
    let half := Z.shiftl 1 (shift - 1) in
    let q' := if r <? half then q
              else if half <? r then q + 1
              else if Z.even q then q else q + 1 in
    Z.sgn z * Z.shiftl q' shift.

(** [left + n] for a number [n]: numeric addition, in double precision,
    when the left operand is a number, a boolean or [null]; string
    concatenation otherwise. *)
Definition js_add_number (left : json) (n : Z) : json :=
  match left with
  | JNum m => JNum (to_double (m + n))
  | JBool b => JNum (to_double ((if b then 1 else 0) + n))
  | JNull => JNum n
  | _ => JStr (js_toString left +:+ pretty n)
  end.

(** [Math.round(ms / 1000)] for an integer number of milliseconds:
    [Math.round] rounds to the nearest integer, a half upwards.  (For
    differences of [Date.now()] readings the division in double precision
    never carries a quotient across a half.) *)
Definition round_ms_to_seconds (ms : Z) : Z := (ms + 500) / 1000.

End Js.

(** ** Messages sent to renderer windows *)

Module Ipc.
Import Js.

(** The raw counters of the transfer engine at a progress callback
    ([torrent.progress] as a scaled integer, the others as the engine
    counts them); the unit conversions and the [toFixed(2)] formatting
    applied to them are floating-point arithmetic and are not
    reproduced. *)
Record torrent_counters : Type := {
  torrent_progress : Z;
  torrent_downloadSpeed : Z;
  torrent_uploaded : Z;
  torrent_numPeers : Z;
  torrent_length : Z
}.

Inductive message : Type :=
  | TorrentProgress (counters : torrent_counters)
  | DecompressionStart (gameId : string)
  | DecompressionProgress (gameId : string) (progress : Z)
  | DecompressionComplete (gameId : string)
  | DecompressionError (gameId : string) (text : string)
  | ProfileLoaded (library : list json)
  | UpdatePlaytime (gameId : string).

(** The object [{ success, message }] an [ipcMain.handle] handler answers
    with. *)
Record reply : Type := Reply { success : bool; text : string }.

(** The promise a handler returns: still pending, fulfilled with a
    reply, or rejected with the error thrown in its executor. *)
Inductive promise : Type :=
  | Pending
  | Fulfilled (value : reply)
  | RejectedWith (error : string).

(** What one invocation of a handler leaves behind: the state of the
    promise it returned once all its callbacks have run, and the errors
    thrown out of callbacks, which reach the [uncaughtException]
    listener. *)
Record outcome : Type := Outcome {
  promise_state : promise;
  uncaught : list string
}.

End Ipc.

(** ** Progress of the decoder: the [stdout] handler of [handleExtraction] *)

Module Progress.
Import Ipc.

Definition is_digit (c : Ascii.ascii) : bool :=
  let n := Ascii.N_of_ascii c in ((48 <=? n) && (n <=? 57))%N.

Definition digit_value (c : Ascii.ascii) : Z :=
  Z.of_N (Ascii.N_of_ascii c) - 48.

Definition percent_sign : Ascii.ascii := Ascii.ascii_of_N 37.

(** [n] digits followed by [%] at the start of [s]. *)
Definition digits_then_percent (n : nat) (s : string) : option string :=
  let digits := String.substring 0 n s in
  if (String.length digits =? n)%nat
     && forallb is_digit (String.list_ascii_of_string digits)
     && bool_decide (String.get n s = Some percent_sign)
  then Some digits else None.

(** [(\d{1,3})%] anchored at the start of [s]: the quantifier is greedy,
    so three digits are tried first, then two, then one. *)
Definition match_here (s : string) : option string :=
  match digits_then_percent 3 s with
  | Some digits => Some digits
  | None =>
      match digits_then_percent 2 s with
      | Some digits => Some digits
      | None => digits_then_percent 1 s
      end
  end.

(** [output.match(/(\d{1,3})%/)]: the leftmost position at which the
    pattern matches; the result is capture group 1. *)
Fixpoint regex_match (output : string) : option string :=
  match match_here output with
  | Some digits => Some digits
  | None =>
      match output with
      | EmptyString => None
      | String _ rest => regex_match rest
      end
  end.

(** [parseInt(digits, 10)] on a string of decimal digits. *)
Definition parseInt (digits : string) : Z :=
  fold_left (λ acc c, 10 * acc + digit_value c)
            (String.list_ascii_of_string digits) 0.

(** One [data] event on the decoder's standard output.  [destroyed] is
    what [event.sender.isDestroyed()] answers at that moment.  A captured
    group is a non-empty string, hence truthy.  Returns the new
    [lastPercentage] and the messages sent. *)
Definition on_stdout_data (gameId : string) (destroyed : bool)
    (output : string) (lastPercentage : Z) : Z * list message :=
  match regex_match output with
  | Some digits =>
      let percentage := parseInt digits in
      if percentage >=? lastPercentage
      then (percentage,
            if destroyed then []
            else [DecompressionProgress gameId percentage])
      else (lastPercentage, [])
  | None => (lastPercentage, [])
  end.

(** The chunks of one extraction run, in order of arrival. *)
Fixpoint on_stdout_chunks (gameId : string) (chunks : list (bool * string))
    (lastPercentage : Z) : Z * list message :=
  match chunks with
  | [] => (lastPercentage, [])
  | (destroyed, output) :: rest =>
      let '(last, sent) := on_stdout_data gameId destroyed output lastPercentage in
      let '(final, later) := on_stdout_chunks gameId rest last in
      (final, sent ++ later)
  end.

(** [let lastPercentage = 0] at the start of every extraction. *)
Definition extraction_progress (gameId : string)
    (chunks : list (bool * string)) : list message :=
  snd (on_stdout_chunks gameId chunks 0).

Definition progress_of (m : message) : option Z :=
  match m with
  | DecompressionProgress _ progress => Some progress
  | _ => None
  end.

(** The percentages carried by the progress messages of a run. *)
Definition percentages (sent : list message) : list Z :=
  omap progress_of sent.

End Progress.

(** ** The profile store: [loadProfile] and [saveProfile] *)

Module ProfileStore.
Import Js Ipc.

(** The file [user_data.json].  Its text is identified with what
    [JSON.parse] makes of it, and writing [JSON.stringify(v, null, 2)]
    leaves a file that parses back to [v].
    - [Absent]: [fs.existsSync] answers false;
    - [Unreadable]: [fs.readFileSync] throws;
    - [Blank]: the text is empty or white space only;
    - [Malformed]: [JSON.parse] throws;
    - [Parsed v]: [JSON.parse] returns [v]. *)
Inductive file_state : Type :=
  | Absent
  | Unreadable
  | Blank
  | Malformed
  | Parsed (value : json).

(** The state the handlers of the main process share: the profile file,
    whether [fs.writeFileSync] on it succeeds, the module-level [Map]
    [extractionPaths], and the number of open windows
    ([BrowserWindow.getAllWindows()]). *)
Record world : Type := World {
  disk : file_state;
  writable : bool;
  extractionPaths : gmap string json;
  windows : nat
}.

Definition with_disk (d : file_state) (w : world) : world :=
  World d (writable w) (extractionPaths w) (windows w).

Definition with_extractionPaths (t : gmap string json) (w : world) : world :=
  World (disk w) (writable w) t (windows w).

(** Computations of the main process: they read and change the shared
    state, send messages to windows, and end normally or by throwing. *)
Definition M (A : Type) : Type :=
  world → completion A * world * list message.

#[export] Instance M_ret : MRet M := λ A a w, (Normal a, w, []).

#[export] Instance M_bind : MBind M := λ A B f c w,
  match c w with
  | (Normal a, w', sent) =>
      let '(r, w'', sent') := f a w' in (r, w'', sent ++ sent')
  | (Throw e, w', sent) => (Throw e, w', sent)
  end.

Definition throw {A} (error : string) : M A := λ w, (Throw error, w, []).

Definition lift {A} (c : completion A) : M A := λ w, (c, w, []).

Definition get_world : M world := λ w, (Normal w, w, []).

Definition put_world (w' : world) : M unit := λ _, (Normal (), w', []).

Definition send (m : message) : M unit := λ w, (Normal (), w, [m]).

(** [try { body } catch (error) { handler(error) }]: the effects of the
    body up to the throw stay. *)
Definition try_catch {A} (body : M A) (handler : string → M A) : M A := λ w,
  match body w with
  | (Normal a, w', sent) => (Normal a, w', sent)
  | (Throw e, w', sent) =>
      let '(r, w'', sent') := handler e w' in (r, w'', sent ++ sent')
  end.

(** [BrowserWindow.getAllWindows().forEach(win => win.webContents.send(..))] *)
Definition broadcast (m : message) : M unit := λ w,
  (Normal (), w, replicate (windows w) m).

Definition map_of (entries : list (string * json)) : gmap string json :=
  list_to_map entries.

Definition defaultUser : json :=
  JObj (map_of [ ("name", JStr "User"); ("level", JNum 0);
                 ("picture", JNull); ("expositors", JArr []) ]).

Definition defaultProfile : json :=
  JObj (map_of [ ("library", JArr []); ("user", defaultUser);
                 ("extractionPaths", JObj ∅) ]).

(** [game.playtime = game.playtime || 0] *)
Definition backfill_playtime (game : json) : completion json :=
  playtime ← get_prop game "playtime";
  set_prop game "playtime" (js_or playtime (JNum 0)).

(** The object literal assigned to [parsedData.user]. *)
Definition rebuild_user (user : json) : completion json :=
  name ← get_prop user "name";
  level ← get_prop user "level";
  picture ← get_prop user "picture";
  expositors ← get_prop user "expositors";
  mret (JObj (map_of
    [ ("name", js_or name (JStr "User"));
      ("level", js_or level (JNum 0));
      ("picture", js_or picture JNull);
      ("expositors", match expositors with
                     | Some (JArr l) => JArr l
                     | _ => JArr []
                     end) ])).

(** The own enumerable properties a [for ... in] loop finds on an array:
    its indices, as strings. *)
Definition index_entries (elements : list json) : gmap string json :=
  list_to_map (imap (λ i v, (pretty i, v)) elements).

(** The loop that copies the persisted table into the [Map].  On an
    object that has an own property [hasOwnProperty] (a JSON value, so
    not a function) the call [parsedData.extractionPaths.hasOwnProperty
    (gameId)] throws in the first iteration, before any entry is set.
    Otherwise every own property is set, overwriting an entry of the
    same key and leaving the others. *)
Definition merge_extractionPaths (persisted : option json) : M unit :=
  if truthy persisted && typeof_object persisted then
    match persisted with
    | Some (JObj entries) =>
        match entries !! "hasOwnProperty" with
        | Some _ => throw "TypeError: hasOwnProperty is not a function"
        | None =>
            w ← get_world;
            put_world (with_extractionPaths (entries ∪ extractionPaths w) w)
        end
    | Some (JArr elements) =>
        w ← get_world;
        put_world (with_extractionPaths
                     (index_entries elements ∪ extractionPaths w) w)
    | _ => mret ()
    end
  else mret ().

(** The branch of [loadProfile] taken once the structure is validated. *)
Definition load_validated (parsedData : json) (library : list json)
    (user : json) : M json :=
  library' ← lift (mapM backfill_playtime library);
  parsedData ← lift (set_prop parsedData "library" (JArr library'));
  user' ← lift (rebuild_user user);
  parsedData ← lift (set_prop parsedData "user" user');
  persisted ← lift (get_prop parsedData "extractionPaths");
  merge_extractionPaths persisted;;
  broadcast (ProfileLoaded library');;
  mret parsedData.

(** The body of the [try] block of [loadProfile]. *)
Definition loadProfile_try : M json :=
  w ← get_world;
  match disk w with
  | Absent => mret defaultProfile
  | Unreadable => throw "Error: cannot read user_data.json"
  | Blank => mret defaultProfile
  | Malformed => throw "SyntaxError: Unexpected token"
  | Parsed parsedData =>
      if truthy (Some parsedData) && typeof_object (Some parsedData) then
        library ← lift (get_prop parsedData "library");
        match library with
        | Some (JArr games) =>
            user ← lift (get_prop parsedData "user");
            match user with
            | Some u =>
                if typeof_object user
                then load_validated parsedData games u
                else mret defaultProfile
            | None => mret defaultProfile
            end
        | _ => mret defaultProfile
        end
      else mret defaultProfile
  end.

Definition loadProfile : M json :=
  try_catch loadProfile_try (λ _, mret defaultProfile).

(** [fs.writeFileSync(userDataFilePath, JSON.stringify(v, null, 2))] *)
Definition writeFileSync (v : json) : M unit := λ w,
  if writable w then (Normal (), with_disk (Parsed v) w, [])
  else (Throw "Error: cannot write user_data.json", w, []).

(** [saveProfile(profileData)]: the table is flattened to a plain object
    ([Object.fromEntries]) and stored in the [extractionPaths] property
    of the profile, which is then written; any error is logged and
    swallowed. *)
Definition saveProfile (profileData : json) : M unit :=
  try_catch
    (w ← get_world;
     profileData ← lift (set_prop profileData "extractionPaths"
                           (JObj (extractionPaths w)));
     writeFileSync profileData)
    (λ _, mret ()).

(** Running a computation: its result, the state it leaves, what it
    sent. *)
Definition result_of {A} (r : completion A * world * list message) :
    completion A := r.1.1.
Definition world_of {A} (r : completion A * world * list message) :
    world := r.1.2.
Definition sent_of {A} (r : completion A * world * list message) :
    list message := r.2.

End ProfileStore.

(** ** Extraction: [handleExtraction] *)

Module Extraction.
Import Js Ipc Locator Progress ProfileStore.

(** How the promise returned by [handleExtraction] settles. *)
Inductive settlement : Type :=
  | Resolved
  | Rejected (text : string).

(** How the decoder process ends.  When it cannot be started, Node emits
    [error] and then [close] with the negated error number as exit code;
    otherwise [close] carries the exit code, or [null] when the process
    was killed by a signal. *)
Inductive process_end : Type :=
  | SpawnFailed (text : string) (errno : positive)
  | Closed (code : option Z).

(** Everything the environment decides during one extraction. *)
Record extraction_env : Type := {
  download_listing : completion (list string);
  extractionDir_exists : bool;
  mkdir_result : completion unit;
  destroyed_at_start : bool;
  stdout_chunks : list (bool * string);
  decoder_end : process_end;
  extracted : readdir_result;
  destroyed_at_end : bool
}.

(** [file.endsWith(suffix)] *)
Definition endsWith (file suffix : string) : bool :=
  (String.length suffix <=? String.length file)%nat
  && String.eqb
       (String.substring (String.length file - String.length suffix)
                         (String.length suffix) file)
       suffix.

(** A path as the string stored in the table. *)
Definition path_to_string (p : path) : string := String.concat "/" p.

Definition exit_code_text (code : option Z) : string :=
  match code with Some n => pretty n | None => "null" end.

(** [event.sender.send(..)] without a preceding [isDestroyed()] test:
    on a destroyed sender the call throws. *)
Definition send_unguarded (destroyed : bool) (m : message) : M unit :=
  if destroyed then throw "Object has been destroyed" else send m.

Definition send_each (sent : list message) : M unit := λ w,
  (Normal (), w, sent).

(** The [close] listener. *)
Definition on_close (extractionDir : path) (gameId : string)
    (env : extraction_env) (code : option Z) : M settlement :=
  match code with
  | Some 0 =>
      try_catch
        (match extracted env with
         | ReadError => throw "Error: cannot read the extraction directory"
         | Entries [] => throw "No files found after extraction"
         | Entries (_ :: _) =>
             match findExecutable extractionDir (extracted env)
                     "Terraria.exe" with
             | None => throw "Target executable not found in extracted files"
             | Some execFile =>
                 w ← get_world;
                 put_world
                   (with_extractionPaths
                      (<[gameId :=
                           JObj (map_of
                             [ ("path", JStr (path_to_string extractionDir));
                               ("execTarget", JStr (path_to_string execFile)) ])]>
                         (extractionPaths w)) w);;
                 (if destroyed_at_end env then mret ()
                  else send (DecompressionComplete gameId));;
                 mret Resolved
             end
         end)
        (λ verificationError, mret (Rejected verificationError))
  | _ =>
      mret (Rejected ("7-Zip extraction failed with code "
                        +:+ exit_code_text code))
  end.

(** [handleExtraction(downloadPath, gameId, event)].  A promise settles
    once: after an [error] event has rejected it, the [close] listener
    still runs but its own rejection changes nothing. *)
Definition handleExtraction (downloadPath : path) (gameId : string)
    (env : extraction_env) : M settlement :=
  try_catch
    (files ← lift (download_listing env);
     match List.find (λ file, endsWith file ".rar") files with
     | None => mret (Rejected "No .rar file found in the download directory")
     | Some rarFile =>
         let extractionDir := path_join downloadPath "extracted" in
         (if extractionDir_exists env then mret ()
          else lift (mkdir_result env));;
         send_unguarded (destroyed_at_start env) (DecompressionStart gameId);;
         send_each (extraction_progress gameId (stdout_chunks env));;
         match decoder_end env with
         | SpawnFailed text errno =>
             on_close extractionDir gameId env (Some (Z.neg errno));;
             mret (Rejected ("Failed to start 7-Zip process: " +:+ text))
         | Closed code => on_close extractionDir gameId env code
         end
     end)
    (λ err, mret (Rejected ("Extraction preparation failed: " +:+ err))).

End Extraction.

(** ** Transfer: the handler of [start-torrent-download] *)

Module Transfer.
Import Js Ipc Locator ProfileStore Extraction.

(** The handler builds its promise with [new Promise((resolve) => ...)]:
    [resolve] is the only settling function its callbacks have in scope.
    No enclosing scope of the handler declares [reject], so evaluating
    the identifier throws a [ReferenceError]. *)
Definition executor_parameters : list string := ["resolve"].

(** A call [name(value)] of a settling function from a callback of the
    executor. *)
Definition call_settling (name : string) (value : reply) (p : promise) :
    completion promise :=
  if bool_decide (name ∈ executor_parameters)
  then Normal (match p with Pending => Fulfilled value | _ => p end)
  else Throw ("ReferenceError: " +:+ name +:+ " is not defined").

(** How the transfer ends: the engine reports [done], after which
    [client.remove] calls back with or without an error and, without
    one, the extraction runs in the given environment; or the engine
    reports [error]. *)
Inductive torrent_end : Type :=
  | TorrentDone (removeError : option string) (env : extraction_env)
  | TorrentError (text : string).

Record transfer_run : Type := {
  download_events : list (bool * torrent_counters);
  transfer_end : torrent_end
}.

(** The [download] listener; the flag is [event.sender.isDestroyed()]. *)
Definition on_download (tick : bool * torrent_counters) : list message :=
  if tick.1 then [] else [TorrentProgress tick.2].

(** A callback run by the event loop: an error it throws does not reach
    the promise, it goes to the [uncaughtException] listener. *)
Definition run_callback (p : promise) (body : M promise) : M outcome := λ w,
  match body w with
  | (Normal p', w', sent) => (Normal (Outcome p' []), w', sent)
  | (Throw e, w', sent) => (Normal (Outcome p [e]), w', sent)
  end.

(** [err.message || 'Extraction failed'] *)
Definition message_or_default (text : string) : string :=
  if String.eqb text "" then "Extraction failed" else text.

Definition on_torrent_end (downloadPath : path) (gameId : string)
    (ending : torrent_end) : M promise :=
  match ending with
  | TorrentError text =>
      lift (call_settling "reject" (Reply false text) Pending)
  | TorrentDone (Some _) _ =>
      lift (call_settling "reject" (Reply false "Failed to stop torrent")
              Pending)
  | TorrentDone None env =>
      settled ← handleExtraction downloadPath gameId env;
      match settled with
      | Resolved =>
          lift (call_settling "resolve"
                  (Reply true "Download and extraction completed") Pending)
      | Rejected text =>
          send_unguarded (destroyed_at_end env)
            (DecompressionError gameId (message_or_default text));;
          lift (call_settling "reject" (Reply false "Extraction failed")
                  Pending)
      end
  end.

(** The handler.  [downloads] is [app.getPath('downloads')]. *)
Definition start_torrent_download (downloads : path) (gameId : option json)
    (run : transfer_run) : M outcome :=
  match gameId with
  | Some (JStr id) =>
      if truthy gameId then
        send_each (concat (on_download <$> download_events run));;
        run_callback Pending
          (on_torrent_end (path_join downloads id) id (transfer_end run))
      else mret (Outcome (Fulfilled (Reply false "Invalid gameId")) [])
  | _ => mret (Outcome (Fulfilled (Reply false "Invalid gameId")) [])
  end.

End Transfer.

(** ** Launch: the handler of [launch-game] *)

Module Launch.
Import Js Ipc ProfileStore Transfer.

(** [game.id === gameId] for a string [gameId]. *)
Definition strict_equal_string (v : option json) (s : string) : bool :=
  match v with
  | Some (JStr t) => String.eqb t s
  | _ => false
  end.

(** [library.findIndex(game => game.id === gameId)], [None] for [-1]. *)
Fixpoint findIndex (gameId : string) (library : list json) :
    completion (option nat) :=
  match library with
  | [] => Normal None
  | game :: rest =>
      id ← get_prop game "id";
      if strict_equal_string id gameId then Normal (Some 0%nat)
      else (i ← findIndex gameId rest; Normal (fmap (M:=option) S i))
  end.

(** [library[i].playtime = (library[i].playtime || 0) + playtimeSec] *)
Definition add_playtime (library : list json) (i : nat) (playtimeSec : Z) :
    completion (list json) :=
  match library !! i with
  | Some game =>
      playtime ← get_prop game "playtime";
      game' ← set_prop game "playtime"
                (js_add_number (js_or playtime (JNum 0)) playtimeSec);
      Normal (<[i := game']> library)
  | None => Throw "TypeError: Cannot read properties of undefined"
  end.

(** The callback given to [execFile]; it runs when the process has
    ended, with the error of the run if there is one.  [startTime] and
    [endTime] are the two readings of [Date.now()]. *)
Definition on_exit (gameId : string) (startTime endTime : Z)
    (error : option string) : M promise :=
  let playtimeSec := round_ms_to_seconds (endTime - startTime) in
  profileData ← loadProfile;
  library ← lift (get_prop profileData "library");
  match library with
  | Some (JArr games) =>
      gameIndex ← lift (findIndex gameId games);
      profileData ← match gameIndex with
                    | Some i =>
                        games' ← lift (add_playtime games i playtimeSec);
                        lift (set_prop profileData "library" (JArr games'))
                    | None => mret profileData
                    end;
      saveProfile profileData;;
      match error with
      | Some text =>
          lift (call_settling "resolve"
                  (Reply false ("Launch failed: " +:+ text)) Pending)
      | None =>
          p ← lift (call_settling "resolve"
                      (Reply true "Game launched successfully") Pending);
          broadcast (UpdatePlaytime gameId);;
          mret p
      end
  | _ => throw "TypeError: profileData.library.findIndex is not a function"
  end.

(** The message of the [TypeError] that [path.dirname] throws on an
    argument that is not a string. *)
Definition dirname_type_error : string :=
  "The path argument must be of type string".

Definition not_found : outcome :=
  Outcome (Fulfilled (Reply false "Game executable not found")) [].

(** What the call [execFile(execName, [], { cwd: execDir }, callback)]
    comes to.  [execFile] checks its arguments before it starts
    anything and throws at once on those it refuses (an empty file name,
    for one, which is what [path.basename] makes of a target of
    separators only, such as [/]); the callback is then never run.
    Otherwise the process is started and, when it has ended or could not
    be started, the callback runs with the error of the run if there is
    one. *)
Inductive execFile_run : Type :=
  | Refused (thrown : string)
  | Ended (error : option string).

(** The executor of the promise the handler returns: an error thrown in
    it, here by [execFile], rejects the promise.  The [try] block of the
    handler does not see it, for the promise is returned, not awaited,
    and so the caller of [launch-game] gets the rejection. *)
Definition launch_executor (gameId : string) (startTime endTime : Z)
    (run : execFile_run) : M outcome :=
  match run with
  | Refused thrown => mret (Outcome (RejectedWith thrown) [])
  | Ended error =>
      run_callback Pending (on_exit gameId startTime endTime error)
  end.

(** The handler, for an item id that is a string (the keys of the table
    are strings, so any other id is not found). *)
Definition launch_game (gameId : string) (startTime endTime : Z)
    (run : execFile_run) : M outcome :=
  w ← get_world;
  match extractionPaths w !! gameId with
  | Some gameData =>
      if truthy (Some gameData) then
        match get_prop gameData "execTarget" with
        | Normal (Some (JStr execTarget)) =>
            if truthy (Some (JStr execTarget))
            then launch_executor gameId startTime endTime run
            else mret not_found
        | Normal execTarget =>
            if truthy execTarget
            then mret (Outcome (Fulfilled
                         (Reply false ("Launch error: " +:+ dirname_type_error)))
                         [])
            else mret not_found
        | Throw e =>
            mret (Outcome (Fulfilled (Reply false ("Launch error: " +:+ e))) [])
        end
      else mret not_found
  | None => mret not_found
  end.

End Launch.

(** ** The vocabulary of the specification *)

Module Reading.
Import Js Ipc ProfileStore.

(** A property of a value that is not [null]. *)
Definition peek (v : json) (name : string) : option json :=
  match v with
  | JObj properties => properties !! name
  | _ => None
  end.

Definition library_of (profile : json) : list json :=
  match peek profile "library" with
  | Some (JArr games) => games
  | _ => []
  end.

(** What a persisted value lists as installed paths. *)
Definition entries_of (persisted : option json) : gmap string json :=
  match persisted with
  | Some (JObj entries) => entries
  | Some (JArr elements) => index_entries elements
  | _ => ∅
  end.

Definition persisted_entries (d : file_state) : gmap string json :=
  match d with
  | Parsed v => entries_of (peek v "extractionPaths")
  | _ => ∅
  end.

(** "Not an object, [library] not a sequence, [user] not an object",
    with "object" as [typeof] has it. *)
Definition structurally_invalid (v : json) : Prop :=
  truthy (Some v) && typeof_object (Some v) = false
  ∨ isArray (peek v "library") = false
  ∨ typeof_object (peek v "user") = false.

#[export] Instance structurally_invalid_dec v :
  Decision (structurally_invalid v).
Proof. unfold structurally_invalid. apply _. Defined.

(** The states of the file on which [load] is to answer with the
    default profile: absent, empty, unparsable (or unreadable), or
    structurally invalid. *)
Definition unusable (d : file_state) : Prop :=
  match d with
  | Absent | Unreadable | Blank | Malformed => True
  | Parsed v => structurally_invalid v
  end.





(** *** The normalisation the specification defines *)

(** [fill name d o]: the property [name] of [o], when missing, becomes
    [d]. *)
Definition fill (name : string) (d : json) (o : gmap string json) :
    gmap string json :=
  match o !! name with
  | Some _ => o
  | None => <[name := d]> o
  end.

Definition fill_playtime (game : json) : json :=
  match game with
  | JObj r => JObj (fill "playtime" (JNum 0) r)
  | _ => game
  end.

Definition fill_user (user : json) : json :=
  match user with
  | JObj u =>
      JObj (fill "name" (JStr "User")
             (fill "level" (JNum 0)
               (fill "picture" JNull
                 (fill "expositors" (JArr []) u))))
  | _ => user
  end.

Definition fill_library (library : json) : json :=
  match library with
  | JArr games => JArr (fill_playtime <$> games)
  | _ => library
  end.

(** Missing playtime and missing user subfields filled with defaults. *)
Definition fill_defaults (v : json) : json :=
  match v with
  | JObj m => JObj (alter fill_user "user" (alter fill_library "library" m))
  | _ => v
  end.

(** The installed-path table, flattened, as the [extractionPaths]
    property of a profile. *)
Definition with_paths (table : gmap string json) (v : json) : json :=
  match v with
  | JObj m => JObj (<["extractionPaths" := JObj table]> m)
  | _ => v
  end.

(** *** Well-formed profiles (the data model of the specification) *)

Definition well_formed_record (game : json) : Prop :=
  ∃ r id, game = JObj r
          ∧ r !! "id" = Some (JStr id)
          ∧ (r !! "playtime" = None
             ∨ ∃ n, 0 ≤ n ∧ r !! "playtime" = Some (JNum n)).

Definition user_fields : gset string :=
  {[ "name"; "level"; "picture"; "expositors" ]}.

Definition well_formed_user (user : json) : Prop :=
  ∃ u, user = JObj u
       ∧ dom u ⊆ user_fields
       ∧ (u !! "name" = None ∨ ∃ s, u !! "name" = Some (JStr s))
       ∧ (u !! "level" = None ∨ ∃ n, u !! "level" = Some (JNum n))
       ∧ (u !! "picture" = None ∨ u !! "picture" = Some JNull
          ∨ ∃ s, u !! "picture" = Some (JStr s))
       ∧ (u !! "expositors" = None
          ∨ ∃ l, u !! "expositors" = Some (JArr l)).

Definition well_formed_profile (v : json) : Prop :=
  ∃ m games user,
    v = JObj m
    ∧ m !! "library" = Some (JArr games)
    ∧ Forall well_formed_record games
    ∧ m !! "user" = Some user
    ∧ well_formed_user user
    ∧ (m !! "extractionPaths" = None
       ∨ ∃ entries, m !! "extractionPaths" = Some (JObj entries)).

(** The user's name and picture, when present, are not the empty
    string. *)
Definition user_texts_non_empty (v : json) : Prop :=
  ∀ user, peek v "user" = Some user →
    peek user "name" ≠ Some (JStr "")
    ∧ peek user "picture" ≠ Some (JStr "").

(** [save(load())], from a state [w]: the file it leaves. *)
Definition save_after_load (w : world) : file_state :=
  let loaded := loadProfile w in
  match result_of loaded with
  | Normal profile => disk (world_of (saveProfile profile (world_of loaded)))
  | Throw _ => disk (world_of loaded)
  end.

(** The round trip as the specification has it: on a well-formed
    profile, [save(load())] rewrites the content of the file, changed by
    nothing but the defined normalisation. *)
Definition round_trip (w : world) : Prop :=
  ∀ v, disk w = Parsed v → writable w = true → well_formed_profile v →
    save_after_load w
    = Parsed (with_paths (extractionPaths (world_of (loadProfile w)))
                (fill_defaults v)).

(** A well-formed profile whose user has the empty string for a name;
    nothing is missing in it. *)
Definition unnamed_profile : json :=
  JObj (map_of
    [ ("library",
       JArr [ JObj (map_of [ ("id", JStr "terraria-1"); ("playtime", JNum 12) ]) ]);
      ("user",
       JObj (map_of [ ("name", JStr ""); ("level", JNum 3);
                      ("picture", JNull); ("expositors", JArr []) ]));
      ("extractionPaths", JObj ∅) ]).

(** *** Launching *)

(** The first record of the library whose [id] is the item id. *)
Definition first_match (gameId : string) (library : list json) (i : nat)
    (r : gmap string json) : Prop :=
  library !! i = Some (JObj r)
  ∧ r !! "id" = Some (JStr gameId)
  ∧ ∀ j game, (j < i)%nat → library !! j = Some game →
      peek game "id" ≠ Some (JStr gameId).

Definition no_match (gameId : string) (library : list json) : Prop :=
  ∀ game, game ∈ library → peek game "id" ≠ Some (JStr gameId).

(** The answer of a launch as the spawned process alone decides it. *)
Definition launch_reply (error : option string) : reply :=
  match error with
  | Some text => Reply false ("Launch failed: " +:+ text)
  | None => Reply true "Game launched successfully"
  end.


(** The item ids of the [update-playtime] messages among those sent. *)
Definition playtime_updates (sent : list message) : list string :=
  omap (λ m, match m with UpdatePlaytime gameId => Some gameId | _ => None end)
       sent.

(** What a library element can be after a load: an array, or an object
    that has a [playtime]. *)
Definition record_like (game : json) : Prop :=
  (∃ l, game = JArr l) ∨ (∃ r, game = JObj r ∧ is_Some (r !! "playtime")).

(** The profile the [execFile] callback hands to [saveProfile]. *)
Definition accounted (gameId : string) (sec : Z) (pm : gmap string json)
    (games : list json) (idx : option nat) : gmap string json :=
  match idx with
  | Some i =>
      match games !! i with
      | Some (JObj r) =>
          <["library" :=
              JArr (<[i := JObj (<["playtime" :=
                                     js_add_number
                                       (js_or (r !! "playtime") (JNum 0))
                                       sec]> r)]> games)]> pm
      | _ => pm
      end
  | None => pm
  end.

End Reading.

(** ** Sample data *)

Module Samples.
Import Js Ipc ProfileStore Reading.

(** A library record without [playtime], and the same after a load. *)
Definition fresh_record : json :=
  JObj (map_of [ ("id", JStr "terraria-1"); ("title", JStr "Terraria") ]).

Definition fresh_record_loaded : json :=
  JObj (map_of [ ("id", JStr "terraria-1"); ("title", JStr "Terraria");
                 ("playtime", JNum 0) ]).

(** A file in which a playtime and three user subfields are missing. *)
Definition partial_file : json :=
  JObj (map_of [ ("library", JArr [fresh_record]);
                 ("user", JObj (map_of [ ("name", JStr "Ann") ])) ]).

Definition partial_file_loaded : json :=
  JObj (map_of
    [ ("library", JArr [fresh_record_loaded]);
      ("user", JObj (map_of [ ("name", JStr "Ann"); ("level", JNum 0);
                              ("picture", JNull); ("expositors", JArr []) ])) ]).

Definition installed_record : json :=
  JObj (map_of
    [ ("path", JStr "downloads/terraria-1/extracted");
      ("execTarget", JStr "downloads/terraria-1/extracted/Terraria.exe") ]).

(** A complete file: nothing is missing, one item is installed. *)
Definition complete_file : json :=
  JObj (map_of
    [ ("library",
       JArr [ JObj (map_of [ ("id", JStr "terraria-1"); ("playtime", JNum 12) ]) ]);
      ("user", JObj (map_of [ ("name", JStr "Ann"); ("level", JNum 3);
                              ("picture", JNull); ("expositors", JArr []) ]));
      ("extractionPaths", JObj (map_of [ ("terraria-1", installed_record) ])) ]).


Definition absent_world : world := World Absent true ∅ 1.
Definition complete_world : world :=
  World (Parsed complete_file) true (map_of [ ("terraria-1", installed_record) ]) 1.

(** The table holds an item the file does not list. *)
Definition newly_installed_world : world :=
  World (Parsed partial_file) true (map_of [ ("terraria-1", installed_record) ]) 1.

(** A world whose file is [unnamed_profile]. *)
Definition unnamed_world : world := World (Parsed unnamed_profile) true ∅ 0.

End Samples.

(** ** The remaining handlers of the main process *)

Module Handlers.
Import Js Ipc ProfileStore Launch.

(** [library.find(game => game.id === gameId)], [None] for [undefined]. *)
Fixpoint find_game (gameId : string) (library : list json) :
    completion (option json) :=
  match library with
  | [] => Normal None
  | game :: rest =>
      id ← get_prop game "id";
      if strict_equal_string id gameId then Normal (Some game)
      else find_game gameId rest
  end.

(** The handler of [get-game-playtime], for an item id that is a string.
    It is an [async] function: an error thrown in it rejects the promise
    the caller awaits. *)
Definition get_game_playtime (gameId : string) : M json :=
  profileData ← loadProfile;
  library ← lift (get_prop profileData "library");
  match library with
  | Some (JArr games) =>
      game ← lift (find_game gameId games);
      match game with
      | Some found =>
          if truthy game then
            playtime ← lift (get_prop found "playtime");
            mret (js_or playtime (JNum 0))
          else mret (JNum 0)
      | None => mret (JNum 0)
      end
  | _ => throw "TypeError: profileData.library.find is not a function"
  end.

(** The handlers of [save-profile] and [load-profile]. *)
Definition save_profile (profileData : json) : M unit :=
  saveProfile profileData.

Definition load_profile : M json := loadProfile.

(** [getDriveRoot()], as a function of [process.platform]. *)
Definition getDriveRoot (platform : string) : string :=
  if String.eqb platform "win32" then "C:" else "/".

(** [typeof v === 'number'] *)
Definition typeof_number (v : option json) : bool :=
  match v with Some (JNum _) => true | _ => false end.

(** [handleGetDiskSpace()].  [checkDiskSpace] is the dependency: what it
    resolves with for a drive, or the error it rejects with.  The answer
    is [null] or the object [{ free, total }]. *)
Definition handleGetDiskSpace (platform : string)
    (checkDiskSpace : string → completion (option json)) : json :=
  let drive := getDriveRoot platform in
  match checkDiskSpace drive with
  | Throw _ => JNull
  | Normal diskSpace =>
      match diskSpace with
      | Some d =>
          if truthy diskSpace then
            match get_prop d "free", get_prop d "size" with
            | Normal free, Normal size =>
                if negb (typeof_number free) || negb (typeof_number size)
                then JNull
                else
                  match free, size with
                  | Some f, Some t => JObj (map_of [ ("free", f); ("total", t) ])
                  | _, _ => JNull
                  end
            | _, _ => JNull
            end
          else JNull
      | None => JNull
      end
  end.

(** The channel a message travels on ([webContents.send(channel, ..)]). *)
Definition channel_of (m : message) : string :=
  match m with
  | TorrentProgress _ => "torrent-progress"
  | DecompressionStart _ => "decompression-start"
  | DecompressionProgress _ _ => "decompression-progress"
  | DecompressionComplete _ => "decompression-complete"
  | DecompressionError _ _ => "decompression-error"
  | ProfileLoaded _ => "profile-loaded"
  | UpdatePlaytime _ => "update-playtime"
  end.

(** The channels registered with [ipcMain.handle] and with [ipcMain.on]. *)
Definition handled_channels : list string :=
  [ "get-disk-space"; "start-torrent-download"; "launch-game";
    "save-profile"; "load-profile"; "get-game-playtime" ].

Definition listened_channels : list string :=
  [ "minimize-window"; "maximize-restore-window"; "close-window" ].

End Handlers.

(** ** The preload script *)

Module Preload.

(** How a function of [electronAPI] reaches the main process. *)
Inductive bridge : Type :=
  | Invoke (channel : string)
  | Send (channel : string)
  | On (channel : string)
  | Fetch (url : string).

(** The object exposed with [contextBridge.exposeInMainWorld]. *)
Definition electronAPI : list (string * bridge) :=
  [ ("getDiskSpace", Invoke "get-disk-space");
    ("minimizeWindow", Send "minimize-window");
    ("maximizeRestoreWindow", Send "maximize-restore-window");
    ("closeWindow", Send "close-window");
    ("startTorrentDownload", Invoke "start-torrent-download");
    ("onTorrentProgress", On "torrent-progress");
    ("saveProfile", Invoke "save-profile");
    ("loadProfile", Invoke "load-profile");
    ("launchGame", Invoke "launch-game");
    ("loadGamesData", Fetch "./games.json");
    ("onDecompressionStart", On "decompression-start");
    ("onDecompressionProgress", On "decompression-progress");
    ("onDecompressionComplete", On "decompression-complete");
    ("onDecompressionError", On "decompression-error");
    ("getGamePlaytime", Invoke "get-game-playtime");
    ("onUpdatePlaytime", On "update-playtime") ].

(** The listeners the script installs itself, outside [electronAPI]. *)
Definition own_listeners : list string :=
  [ "update-download-bar"; "hide-download-bar" ].

Definition invoked_channels : list string :=
  omap (λ entry, match entry.2 with Invoke c => Some c | _ => None end)
       electronAPI.

Definition sent_channels : list string :=
  omap (λ entry, match entry.2 with Send c => Some c | _ => None end)
       electronAPI.

(** Every channel on which the renderer side can receive a message. *)
Definition received_channels : list string :=
  omap (λ entry, match entry.2 with On c => Some c | _ => None end)
       electronAPI
  ++ own_listeners.

End Preload.

(** ** Further vocabulary *)

Module Notions.
Import Js Ipc Locator Progress ProfileStore Extraction Transfer Launch Reading.

(** An entry of a listing the search can do something with: a regular
    file, or a directory that can be read. *)
Definition searchable (file : dirent) : bool :=
  match file with
  | File _ => true
  | Directory _ (Entries _) => true
  | Directory _ ReadError => false
  | Other _ => false
  end.

(** The percentage a chunk of decoder output is read as, if any. *)
Definition parsed_percentage (output : string) : option Z :=
  parseInt <$> regex_match output.

(** The installed path of an item can be launched: the table has an
    object for the item whose [execTarget] is a non-empty string. *)
Definition launchable (w : world) (gameId : string) : bool :=
  match extractionPaths w !! gameId with
  | Some (JObj data) =>
      match data !! "execTarget" with
      | Some (JStr execTarget) => negb (String.eqb execTarget "")
      | _ => false
      end
  | _ => false
  end.

(** A valid item id for a download: a non-empty string. *)
Definition valid_gameId (gameId : option json) : bool :=
  match gameId with
  | Some (JStr id) => negb (String.eqb id "")
  | _ => false
  end.

(** A playtime as a load leaves it: truthy, or the number 0. *)
Definition settled_playtime (playtime : json) : Prop :=
  truthy (Some playtime) = true ∨ playtime = JNum 0.

(** A library element as a load leaves it: an array, or an object whose
    playtime is settled. *)
Definition settled_record (game : json) : Prop :=
  (∃ l, game = JArr l)
  ∨ (∃ r playtime, game = JObj r ∧ r !! "playtime" = Some playtime
                   ∧ settled_playtime playtime).

(** [null], a boolean, a number or a string. *)
Definition not_an_object (v : json) : bool :=
  match v with
  | JArr _ | JObj _ => false
  | _ => true
  end.

End Notions.

(** ** Further sample data *)

Module MoreSamples.
Import Js Ipc ProfileStore Reading.

(** The table holds, for an item the file lists, another record than the
    file's. *)
Definition stale_world : world :=
  World (Parsed Samples.complete_file) true
    (map_of [ ("terraria-1",
               JObj (map_of [ ("path", JStr "old/extracted");
                              ("execTarget", JStr "old/extracted/Terraria.exe") ])) ])
    1.

(** A file whose user carries a field the program does not know. *)
Definition tagged_file : json :=
  JObj (map_of
    [ ("library", JArr []);
      ("user", JObj (map_of [ ("name", JStr "Ann"); ("theme", JStr "dark") ])) ]).

Definition tagged_world : world := World (Parsed tagged_file) true ∅ 1.

Definition tagged_file_loaded : json :=
  JObj (map_of
    [ ("library", JArr []);
      ("user", JObj (map_of [ ("name", JStr "Ann"); ("level", JNum 0);
                              ("picture", JNull); ("expositors", JArr []) ])) ]).

(** A file with one good record and one element that is [null]. *)
Definition holed_file : json :=
  JObj (map_of
    [ ("library", JArr [ Samples.fresh_record; JNull ]);
      ("user", JObj (map_of [ ("name", JStr "Ann") ])) ]).

Definition holed_world : world := World (Parsed holed_file) true ∅ 1.

(** A complete file in which an item is named [hasOwnProperty]. *)
Definition shadowing_file : json :=
  JObj (map_of
    [ ("library",
       JArr [ JObj (map_of [ ("id", JStr "terraria-1"); ("playtime", JNum 12) ]) ]);
      ("user", JObj (map_of [ ("name", JStr "Ann") ]));
      ("extractionPaths",
       JObj (map_of [ ("hasOwnProperty", Samples.installed_record) ])) ]).

Definition shadowing_world : world := World (Parsed shadowing_file) true ∅ 1.

(** The file is there but does not parse; an item is installed. *)
Definition corrupt_world : world :=
  World Malformed true (map_of [ ("terraria-1", Samples.installed_record) ]) 1.

End MoreSamples.

(* ===================================================================== *)
(** * Part II: properties                                                  *)
(* ===================================================================== *)

Section LocatorFacts.
Import Locator.

Lemma findExecutable_unfold directory files targetExe :
  findExecutable directory (Entries files) targetExe =
    match direct_match directory files targetExe with
    | Some filePath => Some filePath
    | None => subdirectories directory files targetExe
    end.
Proof.
  simpl. destruct (direct_match directory files targetExe); [done|].
  induction files as [|[n|n c|n] rest IH]; simpl; try done.
  destruct (findExecutable (path_join directory n) c targetExe); done.
Qed.

Lemma all_matches_unfold directory files targetExe :
  all_matches directory (Entries files) targetExe =
    matches_of_entries directory files targetExe.
Proof.
  simpl. induction files as [|[n|n c|n] rest IH]; simpl; by rewrite ?IH.
Qed.

(** Induction over a directory tree: the property is available for the
    contents of every sub-directory of the listing. *)
Lemma readdir_result_ind' (P : readdir_result → Prop) :
  P ReadError →
  (∀ files,
      Forall (λ file, match file with
                      | Directory _ contents => P contents
                      | _ => True
                      end) files →
      P (Entries files)) →
  ∀ listing, P listing.
Proof.
  intros Herr Hent. fix IH 1. intros [|files]; [exact Herr|].
  apply Hent. induction files as [|file rest IHrest]; constructor.
  - destruct file; [exact I | apply IH | exact I].
  - exact IHrest.
Qed.

Lemma direct_match_in_matches directory files targetExe p :
  direct_match directory files targetExe = Some p →
  p ∈ matches_of_entries directory files targetExe.
Proof.
  induction files as [|[n|n c|n] rest IH]; simpl; intros H; try done.
  - destruct (name_matches n targetExe); simpl in *.
    + injection H as <-. apply list_elem_of_here.
    + auto.
  - apply elem_of_app. right. auto.
  - auto.
Qed.

Lemma direct_match_depth directory files targetExe p :
  direct_match directory files targetExe = Some p →
  length p = S (length directory).
Proof.
  induction files as [|file rest IH]; simpl; [done|].
  destruct (isFile file && name_matches (dirent_name file) targetExe).
  - intros [= <-]. unfold path_join. rewrite length_app. simpl. lia.
  - exact IH.
Qed.

(** Every match lies strictly below the directory it was found from. *)
Lemma all_matches_below listing :
  ∀ directory targetExe q,
    q ∈ all_matches directory listing targetExe →
    (length directory < length q)%nat.
Proof.
  induction listing as [|files IH] using readdir_result_ind';
    intros directory targetExe q; [by intros ?%elem_of_nil|].
  rewrite all_matches_unfold.
  induction IH as [|file rest Hfile _ IHrest]; simpl;
    [by intros ?%elem_of_nil|].
  destruct file as [n|n c|n]; [| |exact IHrest].
  - intros [Hq|Hq]%elem_of_app; [|auto].
    destruct (name_matches n targetExe); [|by apply elem_of_nil in Hq].
    apply list_elem_of_singleton in Hq as ->.
    unfold path_join. rewrite length_app. simpl. lia.
  - intros [Hq|Hq]%elem_of_app; [|auto].
    apply Hfile in Hq. unfold path_join in Hq.
    rewrite length_app in Hq. simpl in Hq. lia.
Qed.

(** Soundness: what the search returns is a matching file of the tree. *)
Lemma findExecutable_sound listing :
  ∀ directory targetExe p,
    findExecutable directory listing targetExe = Some p →
    p ∈ all_matches directory listing targetExe.
Proof.
  induction listing as [|files IH] using readdir_result_ind';
    intros directory targetExe p; [done|].
  rewrite findExecutable_unfold, all_matches_unfold.
  destruct (direct_match directory files targetExe) as [d|] eqn:Hd.
  { intros [= <-]. by apply direct_match_in_matches. }
  clear Hd.
  induction IH as [|file rest Hfile _ IHrest]; simpl; [done|].
  destruct file as [n|n c|n]; [| |exact IHrest].
  - intros H. apply elem_of_app. right. auto.
  - destruct (findExecutable (path_join directory n) c targetExe) as [e|] eqn:He.
    + intros [= <-]. apply elem_of_app. left. by apply Hfile.
    + intros H. apply elem_of_app. right. auto.
Qed.

Lemma direct_match_none directory files targetExe n :
  direct_match directory files targetExe = None →
  File n ∈ files → name_matches n targetExe = false.
Proof.
  induction files as [|file rest IH]; simpl; [by intros _ ?%elem_of_nil|].
  destruct (isFile file && name_matches (dirent_name file) targetExe) eqn:E;
    [done|].
  intros Hnone [<-|Hin]%elem_of_cons; [exact E | auto].
Qed.

(** Completeness: a tree that contains a match yields a result. *)
Lemma findExecutable_complete listing :
  ∀ directory targetExe q,
    q ∈ all_matches directory listing targetExe →
    is_Some (findExecutable directory listing targetExe).
Proof.
  induction listing as [|files IH] using readdir_result_ind';
    intros directory targetExe q; [by intros ?%elem_of_nil|].
  rewrite findExecutable_unfold, all_matches_unfold.
  destruct (direct_match directory files targetExe) as [d|] eqn:Hd; [by eauto|].
  assert (Hfiles : ∀ n, File n ∈ files → name_matches n targetExe = false)
    by (intros n; by apply direct_match_none with directory).
  clear Hd.
  induction IH as [|file rest Hfile _ IHrest]; simpl;
    [by intros ?%elem_of_nil|].
  destruct file as [n|n c|n].
  - rewrite (Hfiles n) by apply list_elem_of_here. simpl.
    apply IHrest. intros m Hm. apply Hfiles. by apply list_elem_of_further.
  - intros [Hq|Hq]%elem_of_app.
    + apply Hfile in Hq as [e ->]. eauto.
    + destruct (findExecutable (path_join directory n) c targetExe); [eauto|].
      apply IHrest; [|done].
      intros m Hm. apply Hfiles. by apply list_elem_of_further.
  - apply IHrest. intros m Hm. apply Hfiles. by apply list_elem_of_further.
Qed.

(** The search on [deep_first_tree]: the first sub-directory is searched
    to the bottom before the second one is opened. *)
Example findExecutable_deep_first :
  findExecutable ["extracted"] deep_first_tree "Terraria.exe"
  = Some ["extracted"; "a"; "b"; "Terraria.exe"].
Proof. reflexivity. Qed.

(** C1, as stated, fails: on [deep_first_tree] the search returns the
    match at depth 2 although the tree holds a match at depth 1, so the
    result is not a match of the shallowest depth. *)
Lemma findExecutable_not_shallowest :
  ¬ shallowest_match_wins ["extracted"] deep_first_tree "Terraria.exe".
Proof.
  intros H.
  specialize (H ["extracted"; "a"; "b"; "Terraria.exe"] eq_refl
                ["extracted"; "c"; "terraria.exe"]).
  assert (Hin : ["extracted"; "c"; "terraria.exe"]
                  ∈ all_matches ["extracted"] deep_first_tree "Terraria.exe").
  { vm_compute. apply list_elem_of_further, list_elem_of_here. }
  specialize (H Hin). vm_compute in H. lia.
Qed.

(** C1, amended: whenever the tree under [rootDir] holds a match [q],
    the search returns a matching file [p] of the tree; if [rootDir]
    itself lists a matching regular file, [p] is the first such file, it
    has depth 0 and so is no deeper than [q], wherever the
    sub-directories stand in the listing; otherwise [p] is the result of
    the first sub-directory, in listing order, whose own search
    succeeds. *)
Theorem findExecutable_prefers_direct_match root files targetExe q :
  q ∈ all_matches root (Entries files) targetExe →
  ∃ p, findExecutable root (Entries files) targetExe = Some p
       ∧ p ∈ all_matches root (Entries files) targetExe
       ∧ (∀ d, direct_match root files targetExe = Some d →
               p = d ∧ depth_below root p = 0%nat
               ∧ (depth_below root p ≤ depth_below root q)%nat)
       ∧ (direct_match root files targetExe = None →
               subdirectories root files targetExe = Some p).
Proof.
  intros Hq.
  destruct (findExecutable_complete _ _ _ _ Hq) as [p Hp].
  exists p. split; [done|]. split; [by apply findExecutable_sound|].
  rewrite findExecutable_unfold in Hp. split.
  - intros d Hd. rewrite Hd in Hp. injection Hp as <-.
    pose proof (direct_match_depth _ _ _ _ Hd) as Hlen.
    unfold depth_below. rewrite Hlen. split; [done|]. split; lia.
  - intros Hnone. by rewrite Hnone in Hp.
Qed.

(** The amended property at work: the sub-directory is listed first, the
    file directly in the root is returned all the same. *)
Lemma findExecutable_prefers_direct_match_witness :
  let files := [ Directory "bin" (Entries [ File "Terraria.exe" ]);
                 File "TERRARIA.EXE" ] in
  ["extracted"; "bin"; "Terraria.exe"]
    ∈ all_matches ["extracted"] (Entries files) "Terraria.exe"
  ∧ ∃ p, findExecutable ["extracted"] (Entries files) "Terraria.exe" = Some p
       ∧ p ∈ all_matches ["extracted"] (Entries files) "Terraria.exe"
       ∧ (∀ d, direct_match ["extracted"] files "Terraria.exe" = Some d →
               p = d ∧ depth_below ["extracted"] p = 0%nat
               ∧ (depth_below ["extracted"] p
                  ≤ depth_below ["extracted"]
                      ["extracted"; "bin"; "Terraria.exe"])%nat)
       ∧ (direct_match ["extracted"] files "Terraria.exe" = None →
               subdirectories ["extracted"] files "Terraria.exe" = Some p).
Proof.
  intros files.
  assert (Hin : ["extracted"; "bin"; "Terraria.exe"]
                  ∈ all_matches ["extracted"] (Entries files) "Terraria.exe").
  { vm_compute. apply list_elem_of_here. }
  split; [exact Hin|].
  exact (findExecutable_prefers_direct_match
           ["extracted"] files "Terraria.exe" _ Hin).
Defined.

End LocatorFacts.



Section ProgressFacts.
Import Ipc Progress.

Example regex_match_leftmost :
  regex_match " 12% 4 - data.bin  57%" = Some "12".
Proof. reflexivity. Qed.

Example regex_match_four_digits : regex_match "1234%" = Some "234".
Proof. reflexivity. Qed.

Example regex_match_none : regex_match "Everything is Ok" = None.
Proof. reflexivity. Qed.

Lemma percentages_app (a b : list message) :
  percentages (a ++ b) = percentages a ++ percentages b.
Proof. apply omap_app. Qed.

(** One chunk never lowers [lastPercentage] and sends at most one
    message, whose percentage is the new value of [lastPercentage]. *)
Lemma on_stdout_data_cases gameId destroyed output last :
  let '(last', sent) := on_stdout_data gameId destroyed output last in
  last ≤ last'
  ∧ (sent = [] ∨ sent = [DecompressionProgress gameId last']).
Proof.
  unfold on_stdout_data.
  destruct (regex_match output) as [digits|]; [|split; [lia|by left]].
  destruct (parseInt digits >=? last) eqn:E; [|split; [lia|by left]].
  apply Z.geb_le in E. split; [done|].
  destruct destroyed; [by left|by right].
Qed.

Lemma on_stdout_chunks_sorted gameId chunks :
  ∀ last,
    StronglySorted Z.le (percentages (snd (on_stdout_chunks gameId chunks last)))
    ∧ Forall (λ p, last ≤ p) (percentages (snd (on_stdout_chunks gameId chunks last))).
Proof.
  induction chunks as [|[destroyed output] rest IH]; intros last; simpl.
  { split; constructor. }
  pose proof (on_stdout_data_cases gameId destroyed output last) as Hone.
  destruct (on_stdout_data gameId destroyed output last) as [last' sent].
  destruct Hone as [Hle Hsent].
  destruct (IH last') as [Hsorted Hlater].
  destruct (on_stdout_chunks gameId rest last') as [final later]; simpl in *.
  assert (Hlater' : Forall (λ p, last ≤ p) (percentages later)).
  { eapply Forall_impl; [exact Hlater|]. simpl. intros x Hx. lia. }
  rewrite percentages_app.
  destruct Hsent as [->| ->]; simpl; [done|].
  split; constructor; done.
Qed.

(** C4: whatever chunks the decoder writes during one extraction run,
    and whenever the window goes away, the percentages carried by the
    [decompression-progress] messages of that run form a non-decreasing
    sequence. *)
Theorem extraction_progress_monotone gameId (chunks : list (bool * string)) :
  StronglySorted Z.le (percentages (extraction_progress gameId chunks)).
Proof. exact (proj1 (on_stdout_chunks_sorted gameId chunks 0)). Qed.

(** C3: the handler is meant to drop duplicate percentages as well as
    decreasing ones (its own comment says so), yet its test is [>=]: a
    percentage equal to the last one sent is sent again.  Here the
    decoder redraws [10%] twice and two messages leave. *)
Theorem duplicate_percentage_sent_again :
  extraction_progress "terraria-1" [ (false, " 10%"); (false, " 10%") ]
  = [ DecompressionProgress "terraria-1" 10;
      DecompressionProgress "terraria-1" 10 ].
Proof. reflexivity. Qed.

(** A decreasing percentage, on the other hand, is dropped. *)
Example decreasing_percentage_dropped :
  extraction_progress "terraria-1" [ (false, " 25%"); (false, " 24%") ]
  = [ DecompressionProgress "terraria-1" 25 ].
Proof. reflexivity. Qed.

End ProgressFacts.

(** Lookups in a chain of inserts at literal keys. *)
Ltac lookup_fields :=
  repeat (rewrite lookup_insert_eq || rewrite lookup_insert_ne by done).

Ltac decide_keys :=
  repeat (first [rewrite decide_True by done | rewrite decide_False by done]).

Section ProfileFacts.
Import Js Ipc ProfileStore Reading.

Lemma with_extractionPaths_same w :
  with_extractionPaths (extractionPaths w) w = w.
Proof. by destruct w. Qed.

(** An array index, written in decimal, is not the word
    [hasOwnProperty]. *)
Lemma pretty_N_go_first_letter x s s' :
  s ≠ String "h"%char s' → pretty_N_go x s ≠ String "h"%char s'.
Proof.
  revert s. induction (N.lt_wf_0 x) as [x _ IH]; intros s Hs.
  assert (x = 0 ∨ 0 < x)%N as [->|Hx] by lia.
  - by rewrite pretty_N_go_0.
  - rewrite pretty_N_go_step by done. apply IH.
    { by apply N.div_lt. }
    unfold pretty_N_char. by repeat case_match.
Qed.

Lemma pretty_nat_not_hasOwnProperty (i : nat) :
  pretty i ≠ "hasOwnProperty".
Proof.
  unfold pretty, pretty_nat, pretty, pretty_N.
  case_decide; [done|]. by apply pretty_N_go_first_letter.
Qed.

Lemma index_entries_hasOwnProperty elements :
  index_entries elements !! "hasOwnProperty" = None.
Proof.
  unfold index_entries. apply not_elem_of_list_to_map_1.
  intros ([k v] & Hk & Hin)%list_elem_of_fmap.
  apply elem_of_lookup_imap in Hin as (i & x & [= -> ->] & _).
  simpl in Hk. by eapply pretty_nat_not_hasOwnProperty.
Qed.

(** The merge either throws before touching the table, or lays the
    persisted entries over the table. *)
Lemma merge_extractionPaths_run persisted w :
  merge_extractionPaths persisted w
  = match persisted with
    | Some (JObj entries) =>
        match entries !! "hasOwnProperty" with
        | Some _ =>
            (Throw "TypeError: hasOwnProperty is not a function", w, [])
        | None =>
            (Normal (),
             with_extractionPaths (entries_of persisted ∪ extractionPaths w) w,
             [])
        end
    | _ =>
        (Normal (),
         with_extractionPaths (entries_of persisted ∪ extractionPaths w) w,
         [])
    end.
Proof.
  unfold merge_extractionPaths.
  destruct persisted as [[|b|n|s|l|entries]|]; simpl;
    rewrite ?(left_id_L ∅ (∪)), ?with_extractionPaths_same,
      ?andb_false_r; try done.
  destruct (entries !! "hasOwnProperty"); done.
Qed.

Lemma load_validated_run m games u w :
  load_validated (JObj m) games u w
  = match mapM backfill_playtime games with
    | Throw e => (Throw e, w, [])
    | Normal games' =>
        match rebuild_user u with
        | Throw e => (Throw e, w, [])
        | Normal u' =>
            match merge_extractionPaths (m !! "extractionPaths") w with
            | (Throw e, w', sent) => (Throw e, w', sent)
            | (Normal _, w', sent) =>
                (Normal (JObj (<["user" := u']> (<["library" := JArr games']> m))),
                 w',
                 sent ++ replicate (windows w') (ProfileLoaded games'))
            end
        end
    end.
Proof.
  unfold load_validated, mbind, M_bind, lift. simpl.
  destruct (mapM backfill_playtime games) as [games'|e]; [|done]. simpl.
  destruct (rebuild_user u) as [u'|e]; [|done]. simpl.
  rewrite lookup_insert_ne by done. rewrite lookup_insert_ne by done.
  destruct (merge_extractionPaths (m !! "extractionPaths") w)
    as [[[[]|e] w'] sent]; simpl; [|done].
  by rewrite app_nil_r.
Qed.

(** A structurally valid value is an object whose [library] is an
    array and whose [user] is [null], an array or an object. *)
Lemma structurally_valid_inv v :
  ¬ structurally_invalid v →
  ∃ m games u, v = JObj m ∧ m !! "library" = Some (JArr games)
               ∧ m !! "user" = Some u ∧ typeof_object (Some u) = true.
Proof.
  intros Hv. unfold structurally_invalid in Hv.
  destruct v as [|b|n|s|l|m];
    try (exfalso; apply Hv; simpl; by auto using andb_false_r).
  destruct (m !! "library") as [[|b|n|s|games|o]|] eqn:Hlib;
    try (exfalso; apply Hv; simpl; rewrite Hlib; by auto).
  destruct (m !! "user") as [u|] eqn:Hu;
    [|exfalso; apply Hv; simpl; rewrite Hu; by auto].
  destruct (typeof_object (Some u)) eqn:Ht;
    [|exfalso; apply Hv; simpl; rewrite Hu; by auto].
  by exists m, games, u.
Qed.

(** On an unusable file the answer is the default profile, and nothing
    else happens. *)
Lemma loadProfile_unusable w :
  unusable (disk w) → loadProfile w = (Normal defaultProfile, w, []).
Proof.
  unfold loadProfile, loadProfile_try, try_catch, mbind, M_bind, get_world.
  simpl. destruct (disk w) as [| | | |v]; simpl; try done.
  unfold structurally_invalid.
  destruct v as [|b|n|s|l|m]; simpl; try done;
    try (by destruct b); try (by destruct (n =? 0));
    try (by destruct (String.eqb s "")).
  destruct (m !! "library") as [[|b|n|s|games|o]|]; simpl; try done.
  destruct (m !! "user") as [u|]; simpl; [|done].
  intros [Hv|[Hv|Hv]]; try done. by rewrite Hv.
Qed.

Lemma loadProfile_try_valid w m games u :
  disk w = Parsed (JObj m) →
  m !! "library" = Some (JArr games) →
  m !! "user" = Some u →
  typeof_object (Some u) = true →
  loadProfile_try w = load_validated (JObj m) games u w.
Proof.
  intros Hd Hlib Hu Ht.
  unfold loadProfile_try, mbind at 1, M_bind at 1, get_world.
  rewrite Hd. simpl. unfold mbind at 1, M_bind at 1, lift at 1. simpl.
  rewrite Hlib. unfold mbind at 1, M_bind at 1, lift at 1. simpl.
  rewrite Hu, Ht.
  destruct (load_validated (JObj m) games u w) as [[[p|e] w'] sent];
    simpl; done.
Qed.

Lemma loadProfile_try_normal w profile :
  result_of (loadProfile_try w) = Normal profile →
  loadProfile w = loadProfile_try w.
Proof.
  unfold loadProfile, try_catch, result_of.
  by destruct (loadProfile_try w) as [[[p|e] w'] sent].
Qed.

(** The two ways [loadProfile] can go: the default profile with the
    state untouched, or the parsed profile, back-filled, with the
    persisted installed paths laid over the table and the library
    broadcast to every window. *)
Lemma loadProfile_cases w :
  loadProfile w = (Normal defaultProfile, w, [])
  ∨ ∃ m games u games' u',
      disk w = Parsed (JObj m)
      ∧ m !! "library" = Some (JArr games)
      ∧ m !! "user" = Some u
      ∧ mapM backfill_playtime games = Normal games'
      ∧ rebuild_user u = Normal u'
      ∧ entries_of (m !! "extractionPaths") !! "hasOwnProperty" = None
      ∧ loadProfile_try w = loadProfile w
      ∧ loadProfile w
        = (Normal (JObj (<["user" := u']> (<["library" := JArr games']> m))),
           with_extractionPaths
             (entries_of (m !! "extractionPaths") ∪ extractionPaths w) w,
           replicate (windows w) (ProfileLoaded games')).
Proof.
  destruct (disk w) as [| | | |v] eqn:Hd;
    try (left; apply loadProfile_unusable; by rewrite Hd).
  destruct (decide (structurally_invalid v)) as [Hv|Hv];
    [left; apply loadProfile_unusable; by rewrite Hd|].
  destruct (structurally_valid_inv v Hv) as (m & games & u & -> & Hlib & Hu & Ht).
  pose proof (loadProfile_try_valid w m games u Hd Hlib Hu Ht) as Htry.
  unfold loadProfile, try_catch. rewrite Htry, load_validated_run.
  destruct (mapM backfill_playtime games) as [games'|e] eqn:Hg; [|by left].
  destruct (rebuild_user u) as [u'|e] eqn:Hr; [|by left].
  rewrite merge_extractionPaths_run.
  destruct (m !! "extractionPaths") as [[|b|n|s|l|entries]|] eqn:He; simpl.
  6: destruct (entries !! "hasOwnProperty") eqn:Hh; [by left|].
  all: right; exists m, games, u, games', u'; rewrite ?He; simpl.
  all: repeat split; try done.
  apply index_entries_hasOwnProperty.
Qed.

Lemma backfill_playtime_inv game game' :
  backfill_playtime game = Normal game' →
  (∃ l, game = JArr l ∧ game' = JArr l)
  ∨ (∃ r, game = JObj r
          ∧ game' = JObj (<["playtime" := js_or (r !! "playtime") (JNum 0)]> r)).
Proof.
  destruct game as [|b|n|s|l|r]; simpl; try done.
  - intros [= <-]. left. by exists l.
  - intros [= <-]. right. by exists r.
Qed.

Lemma mapM_backfill_Forall2 games :
  ∀ games', mapM backfill_playtime games = Normal games' →
    Forall2 (λ game game', backfill_playtime game = Normal game')
            games games'.
Proof.
  induction games as [|game rest IH]; simpl; intros games'.
  { intros [= <-]. constructor. }
  destruct (backfill_playtime game) as [game'|e] eqn:Hg; [|done]. simpl.
  destruct (mapM backfill_playtime rest) as [rest'|e] eqn:Hr; [|done]. simpl.
  intros [= <-]. constructor; auto.
Qed.


Lemma rebuild_user_inv u user' :
  rebuild_user u = Normal user' →
  user' = JObj (map_of
    [ ("name", js_or (peek u "name") (JStr "User"));
      ("level", js_or (peek u "level") (JNum 0));
      ("picture", js_or (peek u "picture") JNull);
      ("expositors", match peek u "expositors" with
                     | Some (JArr l) => JArr l
                     | _ => JArr []
                     end) ]).
Proof. destruct u as [|b|n|s|l|m]; simpl; try done; by intros [= <-]. Qed.








(** *** Saving *)

Lemma saveProfile_object m w :
  saveProfile (JObj m) w
  = (Normal (),
     if writable w
     then with_disk (Parsed (with_paths (extractionPaths w) (JObj m))) w
     else w,
     []).
Proof.
  unfold saveProfile, try_catch, mbind, M_bind, get_world, lift, writeFileSync.
  simpl. by destruct (writable w).
Qed.

(** A load changes nothing of the state but the table, over which it
    lays the persisted entries, or nothing at all. *)
Lemma loadProfile_world w :
  world_of (loadProfile w) = w
  ∨ world_of (loadProfile w)
    = with_extractionPaths
        (persisted_entries (disk w) ∪ extractionPaths w) w.
Proof.
  destruct (loadProfile_cases w)
    as [->|(m&g&u&g'&u'&Hd&_&_&_&_&_&_& ->)]; [by left|].
  right. by rewrite Hd.
Qed.

(** C10: a load lays the persisted entries over the table without
    clearing it.  An entry of the table whose item id the file does not
    list is the same after the load and is part of the file the next
    save writes; no load removes an entry. *)
Theorem loadProfile_keeps_installed_paths w (gameId : string) (record : json) :
  extractionPaths w !! gameId = Some record →
  persisted_entries (disk w) !! gameId = None →
  extractionPaths (world_of (loadProfile w)) !! gameId = Some record
  ∧ (∀ m, writable w = true →
       ∃ saved table,
         disk (world_of (saveProfile (JObj m) (world_of (loadProfile w))))
         = Parsed saved
         ∧ peek saved "extractionPaths" = Some (JObj table)
         ∧ table !! gameId = Some record)
  ∧ (∀ k, is_Some (extractionPaths w !! k) →
          is_Some (extractionPaths (world_of (loadProfile w)) !! k)).
Proof.
  intros Hin Hout.
  assert (Hkeep : extractionPaths (world_of (loadProfile w)) !! gameId
                  = Some record).
  { destruct (loadProfile_world w) as [->| ->]; [done|]. simpl.
    rewrite lookup_union_r; done. }
  assert (Hw : writable (world_of (loadProfile w)) = writable w).
  { by destruct (loadProfile_world w) as [->| ->]. }
  split; [done|]. split.
  - intros m Hwr. rewrite saveProfile_object, Hw, Hwr. simpl.
    eexists _, _. split; [done|]. simpl. rewrite lookup_insert_eq.
    split; [done|exact Hkeep].
  - intros k [x Hx].
    destruct (loadProfile_world w) as [->| ->]; [by eexists|]. simpl.
    apply lookup_union_is_Some. right. by eexists.
Qed.

(** The theorem at work: an item installed since the file was written. *)
Lemma loadProfile_keeps_installed_paths_witness :
  extractionPaths Samples.newly_installed_world !! "terraria-1"
    = Some Samples.installed_record
  ∧ persisted_entries (disk Samples.newly_installed_world) !! "terraria-1"
    = None
  ∧ extractionPaths (world_of (loadProfile Samples.newly_installed_world))
      !! "terraria-1" = Some Samples.installed_record.
Proof.
  assert (Hin : extractionPaths Samples.newly_installed_world !! "terraria-1"
                = Some Samples.installed_record) by (vm_compute; reflexivity).
  assert (Hout : persisted_entries (disk Samples.newly_installed_world)
                   !! "terraria-1" = None) by (vm_compute; reflexivity).
  split; [exact Hin|]. split; [exact Hout|].
  exact (proj1 (loadProfile_keeps_installed_paths
                  Samples.newly_installed_world "terraria-1"
                  Samples.installed_record Hin Hout)).
Defined.

(** *** The round trip *)

Lemma unnamed_profile_well_formed : well_formed_profile unnamed_profile.
Proof.
  eexists _, _, _. split; [reflexivity|].
  split; [vm_compute; reflexivity|]. split.
  { constructor; [|constructor].
    eexists _, "terraria-1". split; [reflexivity|].
    split; [vm_compute; reflexivity|].
    right. exists 12. split; [lia|vm_compute; reflexivity]. }
  split; [vm_compute; reflexivity|]. split.
  { eexists. split; [reflexivity|].
    split; [apply (bool_decide_unpack _); vm_compute; exact I|].
    split; [right; exists ""; vm_compute; reflexivity|].
    split; [right; exists 3; vm_compute; reflexivity|].
    split; [right; left; vm_compute; reflexivity|].
    right; exists []; vm_compute; reflexivity. }
  right. exists ∅. vm_compute; reflexivity.
Qed.

(** C9, as stated, fails: [unnamed_profile] is well formed and nothing
    is missing in it, yet [save(load())] does not rewrite the same
    content: the user's name, the empty string, comes back as
    ["User"]. *)
Lemma round_trip_loses_empty_name : ¬ round_trip Samples.unnamed_world.
Proof.
  intros H.
  specialize (H unnamed_profile eq_refl eq_refl unnamed_profile_well_formed).
  apply (f_equal (λ d, match d with
                       | Parsed v =>
                           match peek v "user" with
                           | Some user => peek user "name"
                           | None => None
                           end
                       | _ => None
                       end)) in H.
  vm_compute in H. discriminate H.
Qed.

Lemma lookup_fill name d (o : gmap string json) k :
  fill name d o !! k
  = match o !! k with
    | Some x => Some x
    | None => if decide (k = name) then Some d else None
    end.
Proof.
  unfold fill. destruct (o !! name) as [x|] eqn:Hname.
  - destruct (o !! k) eqn:Hk; [done|].
    destruct (decide (k = name)); [congruence|done].
  - rewrite lookup_insert.
    destruct (decide (name = k)) as [<-|Hne].
    + rewrite Hname. by rewrite decide_True.
    + destruct (o !! k); [done|]. by rewrite decide_False.
Qed.

Lemma alter_present (f : json → json) (m : gmap string json) k x :
  m !! k = Some x → alter f k m = <[k := f x]> m.
Proof.
  intros Hk. apply map_eq. intros i.
  rewrite lookup_alter, lookup_insert.
  destruct (decide (k = i)) as [<-|Hne]; [by rewrite Hk|done].
Qed.

(** On a profile with a library and a user, the normalisation rewrites
    those two properties. *)
Lemma fill_defaults_object m games user :
  m !! "library" = Some (JArr games) →
  m !! "user" = Some user →
  fill_defaults (JObj m)
  = JObj (<["user" := fill_user user]>
            (<["library" := JArr (fill_playtime <$> games)]> m)).
Proof.
  intros Hlib Hu. simpl. f_equal.
  rewrite (alter_present _ m "library" _ Hlib).
  erewrite alter_present; [done|]. by lookup_fields.
Qed.

Lemma backfill_well_formed_record game :
  well_formed_record game →
  backfill_playtime game = Normal (fill_playtime game).
Proof.
  intros (r & id & -> & _ & Hp).
  unfold backfill_playtime, fill_playtime, fill, mbind, completion_bind.
  simpl.
  destruct Hp as [Hp|(n & _ & Hp)]; rewrite Hp; simpl; [done|].
  do 2 f_equal.
  apply insert_id.
  by destruct (n =? 0) eqn:E; [apply Z.eqb_eq in E as ->|].
Qed.

Lemma mapM_backfill_well_formed games :
  Forall well_formed_record games →
  mapM backfill_playtime games = Normal (fill_playtime <$> games).
Proof.
  induction 1 as [|game rest Hg _ IH]; [done|]. simpl.
  rewrite (backfill_well_formed_record _ Hg). simpl.
  rewrite IH. done.
Qed.

Lemma user_fields_only (u : gmap string json) k :
  dom u ⊆ user_fields →
  k ≠ "name" → k ≠ "level" → k ≠ "picture" → k ≠ "expositors" →
  u !! k = None.
Proof.
  intros Hdom ????. apply not_elem_of_dom. intros Hk. apply Hdom in Hk.
  unfold user_fields in Hk.
  rewrite !elem_of_union, !elem_of_singleton in Hk. tauto.
Qed.

Lemma rebuild_well_formed_user user :
  well_formed_user user →
  peek user "name" ≠ Some (JStr "") →
  peek user "picture" ≠ Some (JStr "") →
  rebuild_user user = Normal (fill_user user).
Proof.
  intros (u & -> & Hdom & Hname & Hlevel & Hpicture & Hexp) Hn Hp.
  unfold rebuild_user, mbind, completion_bind.
  simpl in *. do 2 f_equal. unfold map_of. simpl.
  apply map_eq. intros k. rewrite !lookup_fill.
  destruct (decide (k = "name")) as [->|Hk1].
  { lookup_fields. decide_keys.
    destruct Hname as [Hx|[s Hx]]; rewrite Hx in Hn |- *; simpl; [done|].
    destruct (String.eqb_spec s ""); [by subst|done]. }
  destruct (decide (k = "level")) as [->|Hk2].
  { lookup_fields. decide_keys.
    destruct Hlevel as [Hx|[n Hx]]; rewrite Hx; simpl; [done|].
    by destruct (n =? 0) eqn:E; [apply Z.eqb_eq in E as ->|]. }
  destruct (decide (k = "picture")) as [->|Hk3].
  { lookup_fields. decide_keys.
    destruct Hpicture as [Hx|[Hx|[s Hx]]]; rewrite Hx in Hp |- *; simpl;
      [done|done|].
    destruct (String.eqb_spec s ""); [by subst|done]. }
  destruct (decide (k = "expositors")) as [->|Hk4].
  { lookup_fields. decide_keys.
    by destruct Hexp as [Hx|[l Hx]]; rewrite Hx. }
  lookup_fields. rewrite lookup_empty.
  rewrite (user_fields_only u k Hdom) by done. by decide_keys.
Qed.

(** Loading a well-formed profile: the answer is the profile with the
    defaults filled in, the persisted entries are laid over the table,
    the library is broadcast. *)
Lemma loadProfile_well_formed w v :
  disk w = Parsed v →
  well_formed_profile v →
  user_texts_non_empty v →
  persisted_entries (disk w) !! "hasOwnProperty" = None →
  loadProfile w
  = (Normal (fill_defaults v),
     with_extractionPaths (persisted_entries (disk w) ∪ extractionPaths w) w,
     replicate (windows w) (ProfileLoaded (library_of (fill_defaults v)))).
Proof.
  intros Hd (m & games & user & -> & Hlib & Hgames & Hu & Huser & Hep)
         Htexts Hown.
  destruct (Htexts user Hu) as [Hn Hp].
  assert (Ht : typeof_object (Some user) = true)
    by (by destruct Huser as (u & -> & _)).
  assert (Htry := loadProfile_try_valid w m games user Hd Hlib Hu Ht).
  rewrite load_validated_run in Htry.
  rewrite (mapM_backfill_well_formed games Hgames) in Htry.
  rewrite (rebuild_well_formed_user user Huser Hn Hp) in Htry.
  rewrite merge_extractionPaths_run in Htry.
  rewrite (fill_defaults_object m games user Hlib Hu).
  rewrite Hd in Hown |- *. simpl in Hown |- *.
  unfold library_of. simpl. lookup_fields.
  unfold loadProfile, try_catch. rewrite Htry.
  destruct Hep as [He|[entries He]]; rewrite He in Hown |- *; simpl in *.
  - done.
  - by rewrite Hown.
Qed.

Lemma fill_present name d (o : gmap string json) :
  is_Some (o !! name) → fill name d o = o.
Proof. intros [x Hx]. unfold fill. by rewrite Hx. Qed.

Lemma fill_lookup_same name d (o : gmap string json) :
  is_Some (fill name d o !! name).
Proof.
  rewrite lookup_fill. destruct (o !! name); [by eexists|].
  rewrite decide_True by done. by eexists.
Qed.

Lemma fill_playtime_well_formed game :
  well_formed_record game →
  well_formed_record (fill_playtime game)
  ∧ fill_playtime (fill_playtime game) = fill_playtime game.
Proof.
  intros (r & id & -> & Hid & Hp). simpl. split.
  - eexists _, id. split; [done|]. rewrite !lookup_fill, Hid.
    split; [done|]. right.
    destruct Hp as [Hp|(n & Hn & Hp)]; rewrite Hp.
    + exists 0. by rewrite decide_True.
    + by exists n.
  - f_equal. apply fill_present, fill_lookup_same.
Qed.

Lemma fill_user_fields (u : gmap string json) k :
  fill "name" (JStr "User")
    (fill "level" (JNum 0)
      (fill "picture" JNull (fill "expositors" (JArr []) u))) !! k
  = match u !! k with
    | Some x => Some x
    | None =>
        if decide (k = "name") then Some (JStr "User")
        else if decide (k = "level") then Some (JNum 0)
        else if decide (k = "picture") then Some JNull
        else if decide (k = "expositors") then Some (JArr [])
        else None
    end.
Proof.
  rewrite !lookup_fill. destruct (u !! k); [done|].
  repeat (destruct (decide _); subst; try done).
Qed.

Lemma fill_user_well_formed user :
  well_formed_user user →
  well_formed_user (fill_user user)
  ∧ fill_user (fill_user user) = fill_user user
  ∧ (peek user "name" ≠ Some (JStr "") →
     peek (fill_user user) "name" ≠ Some (JStr ""))
  ∧ (peek user "picture" ≠ Some (JStr "") →
     peek (fill_user user) "picture" ≠ Some (JStr "")).
Proof.
  intros (u & -> & Hdom & Hname & Hlevel & Hpicture & Hexp).
  simpl. split; [|split; [|split]].
  - eexists. split; [done|]. rewrite !fill_user_fields.
    split.
    { intros k [x Hx]%elem_of_dom. rewrite fill_user_fields in Hx.
      destruct (u !! k) eqn:Hk.
      - apply Hdom, elem_of_dom. by eexists.
      - unfold user_fields.
        repeat (destruct (decide _); subst; [set_solver|]). done. }
    decide_keys.
    split; [destruct Hname as [->|[s ->]]; eauto|].
    split; [destruct Hlevel as [->|[n ->]]; eauto|].
    split; [destruct Hpicture as [->|[->|[s ->]]]; eauto|].
    destruct Hexp as [->|[l ->]]; eauto.
  - f_equal.
    set (U := fill "name" (JStr "User")
                (fill "level" (JNum 0)
                  (fill "picture" JNull (fill "expositors" (JArr []) u)))).
    assert (HU : ∀ k, k = "name" ∨ k = "level" ∨ k = "picture"
                      ∨ k = "expositors" → is_Some (U !! k)).
    { intros k Hk. unfold U. rewrite fill_user_fields.
      destruct (u !! k); [by eexists|].
      destruct Hk as [->|[->|[->| ->]]]; simpl; by eexists. }
    rewrite (fill_present "expositors") by (apply HU; auto).
    rewrite (fill_present "picture") by (apply HU; auto).
    rewrite (fill_present "level") by (apply HU; auto).
    rewrite (fill_present "name") by (apply HU; auto).
    done.
  - intros Hn. rewrite fill_user_fields. decide_keys.
    by destruct (u !! "name").
  - intros Hp. rewrite fill_user_fields. decide_keys.
    by destruct (u !! "picture").
Qed.

Lemma fill_library_well_formed games :
  Forall well_formed_record games →
  Forall well_formed_record (fill_playtime <$> games)
  ∧ fill_playtime <$> (fill_playtime <$> games) = fill_playtime <$> games.
Proof.
  induction 1 as [|game rest Hg _ [IH1 IH2]]; [by split|].
  destruct (fill_playtime_well_formed game Hg) as [Hwf Hidem].
  split; [by constructor|]. rewrite !fmap_cons. by rewrite Hidem, IH2.
Qed.

(** What [save(load())] writes for a well-formed profile is again a
    well-formed profile, in which nothing is missing. *)
Lemma saved_profile_well_formed v table :
  well_formed_profile v →
  user_texts_non_empty v →
  well_formed_profile (with_paths table (fill_defaults v))
  ∧ user_texts_non_empty (with_paths table (fill_defaults v))
  ∧ fill_defaults (with_paths table (fill_defaults v))
    = with_paths table (fill_defaults v)
  ∧ peek (with_paths table (fill_defaults v)) "extractionPaths"
    = Some (JObj table).
Proof.
  intros (m & games & user & -> & Hlib & Hgames & Hu & Huser & Hep) Htexts.
  destruct (Htexts user Hu) as [Hn Hp].
  destruct (fill_library_well_formed games Hgames) as [Hg1 Hg2].
  destruct (fill_user_well_formed user Huser) as (Hu1 & Hu2 & Hu3 & Hu4).
  rewrite (fill_defaults_object m games user Hlib Hu). simpl with_paths.
  set (M := <["extractionPaths" := JObj table]> _).
  assert (HMlib : M !! "library" = Some (JArr (fill_playtime <$> games)))
    by (unfold M; by lookup_fields).
  assert (HMuser : M !! "user" = Some (fill_user user))
    by (unfold M; by lookup_fields).
  assert (HMep : M !! "extractionPaths" = Some (JObj table))
    by (unfold M; by lookup_fields).
  split; [|split; [|split]].
  - exists M, (fill_playtime <$> games), (fill_user user).
    repeat split; try done. right. by exists table.
  - intros user'. simpl. rewrite HMuser. intros [= <-]. auto.
  - rewrite (fill_defaults_object M _ _ HMlib HMuser).
    rewrite Hu2, Hg2. f_equal.
    rewrite (insert_id M "library") by done. by rewrite insert_id.
  - done.
Qed.

(** C9, amended: take a well-formed persisted profile in which the
    user's name and picture, when present, are not the empty string, and
    let no installed path, persisted or in memory, be keyed
    [hasOwnProperty].  Then [load] returns the profile with missing
    playtime and user subfields filled with defaults; [save(load())]
    writes that profile with [extractionPaths] set to the table as the
    load left it (the persisted entries laid over those in memory); a
    second [load] returns exactly what was written and leaves the table
    as it was; and when nothing was missing in the file and every entry
    of the table was already persisted, [save(load())] rewrites the same
    content. *)
Theorem save_load_round_trip w v :
  disk w = Parsed v →
  writable w = true →
  well_formed_profile v →
  user_texts_non_empty v →
  (persisted_entries (disk w) ∪ extractionPaths w) !! "hasOwnProperty" = None →
  let table := persisted_entries (disk w) ∪ extractionPaths w in
  let saved := with_paths table (fill_defaults v) in
  let w1 := world_of (loadProfile w) in
  let w2 := world_of (saveProfile (fill_defaults v) w1) in
  result_of (loadProfile w) = Normal (fill_defaults v)
  ∧ extractionPaths w1 = table
  ∧ save_after_load w = Parsed saved
  ∧ disk w2 = Parsed saved
  ∧ result_of (loadProfile w2) = Normal saved
  ∧ extractionPaths (world_of (loadProfile w2)) = table
  ∧ (fill_defaults v = v →
     peek v "extractionPaths" = Some (JObj (persisted_entries (disk w))) →
     extractionPaths w ⊆ persisted_entries (disk w) →
     save_after_load w = disk w).
Proof.
  intros Hd Hwr Hwf Htexts Hown table saved w1 w2.
  apply lookup_union_None in Hown as [HownE HownT].
  assert (Hload := loadProfile_well_formed w v Hd Hwf Htexts HownE).
  assert (Hw1 : w1 = with_extractionPaths table w)
    by (unfold w1; by rewrite Hload).
  assert (Hobj : ∃ m, fill_defaults v = JObj m).
  { destruct Hwf as (m & _ & _ & -> & _). by eexists. }
  destruct Hobj as [fm Hfm].
  assert (Hw2 : w2 = with_disk (Parsed saved) w1).
  { unfold w2, saved. rewrite Hfm, saveProfile_object, Hw1. simpl.
    by rewrite Hwr. }
  assert (Hsave : save_after_load w = Parsed saved).
  { unfold save_after_load. rewrite Hload. simpl.
    rewrite Hfm, saveProfile_object. simpl. rewrite Hwr. simpl.
    unfold saved. by rewrite Hfm. }
  destruct (saved_profile_well_formed v table Hwf Htexts)
    as (Hwf2 & Htexts2 & Hidem & Hpaths).
  fold saved in Hwf2, Htexts2, Hidem, Hpaths.
  assert (Hd2 : disk w2 = Parsed saved) by by rewrite Hw2.
  assert (Hentries2 : persisted_entries (disk w2) = table).
  { rewrite Hd2. simpl. by rewrite Hpaths. }
  assert (Htable2 : extractionPaths w2 = table)
    by (by rewrite Hw2, Hw1).
  assert (Hown2 : persisted_entries (disk w2) !! "hasOwnProperty" = None).
  { rewrite Hentries2. unfold table. apply lookup_union_None. by split. }
  assert (Hload2 := loadProfile_well_formed w2 saved Hd2 Hwf2 Htexts2 Hown2).
  rewrite Hidem, Hentries2, Htable2 in Hload2.
  rewrite (idemp_L (∪) table) in Hload2.
  split; [by rewrite Hload|]. split; [by rewrite Hw1|].
  split; [done|]. split; [done|].
  split; [by rewrite Hload2|]. split; [by rewrite Hload2|].
  intros Hfilled Hpersisted Hsub. rewrite Hsave, Hd. f_equal.
  unfold saved. rewrite Hfilled.
  assert (Htable : table = persisted_entries (disk w)).
  { unfold table. apply map_eq. intros k. rewrite lookup_union.
    destruct (persisted_entries (disk w) !! k) as [x|] eqn:Hx;
      destruct (extractionPaths w !! k) as [y|] eqn:Hy; simpl; try done.
    eapply lookup_weaken in Hy; [|exact Hsub]. congruence. }
  rewrite Htable. destruct v as [|b|n|s|l|m]; try done. simpl in *.
  f_equal. by apply insert_id.
Qed.

(** The theorem at work: on a complete file whose entries are those of
    the table, [save(load())] rewrites the same content. *)
Lemma save_load_round_trip_witness :
  (disk Samples.complete_world = Parsed Samples.complete_file
   ∧ writable Samples.complete_world = true
   ∧ well_formed_profile Samples.complete_file
   ∧ user_texts_non_empty Samples.complete_file
   ∧ (persisted_entries (disk Samples.complete_world)
        ∪ extractionPaths Samples.complete_world) !! "hasOwnProperty" = None)
  ∧ result_of (loadProfile Samples.complete_world)
    = Normal (fill_defaults Samples.complete_file)
  ∧ save_after_load Samples.complete_world = disk Samples.complete_world.
Proof.
  assert (Hwf : well_formed_profile Samples.complete_file).
  { eexists _, _, _. split; [reflexivity|].
    split; [vm_compute; reflexivity|]. split.
    { constructor; [|constructor].
      eexists _, "terraria-1". split; [reflexivity|].
      split; [vm_compute; reflexivity|].
      right. exists 12. split; [lia|vm_compute; reflexivity]. }
    split; [vm_compute; reflexivity|]. split.
    { eexists. split; [reflexivity|].
      split; [apply (bool_decide_unpack _); vm_compute; exact I|].
      split; [right; exists "Ann"; vm_compute; reflexivity|].
      split; [right; exists 3; vm_compute; reflexivity|].
      split; [right; left; vm_compute; reflexivity|].
      right; exists []; vm_compute; reflexivity. }
    right. eexists. vm_compute; reflexivity. }
  assert (Htexts : user_texts_non_empty Samples.complete_file).
  { intros user Hu. vm_compute in Hu. injection Hu as <-.
    split; intros H; vm_compute in H; discriminate H. }
  assert (Hown : (persisted_entries (disk Samples.complete_world)
                    ∪ extractionPaths Samples.complete_world)
                   !! "hasOwnProperty" = None)
    by (vm_compute; reflexivity).
  pose proof (save_load_round_trip Samples.complete_world
                Samples.complete_file eq_refl eq_refl Hwf Htexts Hown)
    as (Hload & _ & _ & _ & _ & _ & Hnoop).
  split; [exact (conj eq_refl (conj eq_refl (conj Hwf (conj Htexts Hown))))|].
  split; [exact Hload|].
  apply Hnoop.
  - vm_compute. reflexivity.
  - vm_compute. reflexivity.
  - assert (Heq : extractionPaths Samples.complete_world
                  = persisted_entries (disk Samples.complete_world))
      by (vm_compute; reflexivity).
    by rewrite Heq.
Defined.

End ProfileFacts.

Section ExtractionFacts.
Import Js Ipc Locator Progress ProfileStore Extraction.

(** The [close] listener either rejects and leaves the state as it
    was, or resolves after entering the record of the item. *)
Lemma on_close_cases extractionDir gameId env code w :
  (∃ text, on_close extractionDir gameId env code w
           = (Normal (Rejected text), w, []))
  ∨ (∃ file files execFile,
       code = Some 0
       ∧ extracted env = Entries (file :: files)
       ∧ findExecutable extractionDir (extracted env) "Terraria.exe"
         = Some execFile
       ∧ result_of (on_close extractionDir gameId env code w)
         = Normal Resolved
       ∧ world_of (on_close extractionDir gameId env code w)
         = with_extractionPaths
             (<[gameId :=
                  JObj (map_of
                    [ ("path", JStr (path_to_string extractionDir));
                      ("execTarget", JStr (path_to_string execFile)) ])]>
                (extractionPaths w)) w).
Proof.
  unfold on_close.
  destruct code as [[|c|c]|]; try (left; by eexists).
  unfold try_catch.
  destruct (extracted env) as [|[|file files]] eqn:Hex;
    try (left; by eexists).
  destruct (findExecutable extractionDir (Entries (file :: files))
              "Terraria.exe") as [execFile|] eqn:Hfind;
    [|left; by eexists].
  right. exists file, files, execFile.
  repeat split; try done;
    unfold mbind, M_bind, get_world, put_world; simpl;
    by destruct (destroyed_at_end env).
Qed.

(** C8: an extraction either fails, and then the promise is rejected
    and the table of installed paths (like the rest of the state) is
    exactly what it was; or it succeeds, which takes an archive in the
    download directory, a decoder that exits with status zero, a
    non-empty output directory and a target found by the locator, and
    then the one change to the table is the record of that item, made of
    the output directory and the located executable. *)
Theorem handleExtraction_commits_only_on_success downloadPath gameId env w :
  let run := handleExtraction downloadPath gameId env w in
  let extractionDir := path_join downloadPath "extracted" in
  (∃ text, result_of run = Normal (Rejected text) ∧ world_of run = w)
  ∨ (∃ archives rarFile file files execFile,
       result_of run = Normal Resolved
       ∧ download_listing env = Normal archives
       ∧ List.find (λ name, endsWith name ".rar") archives = Some rarFile
       ∧ decoder_end env = Closed (Some 0)
       ∧ extracted env = Entries (file :: files)
       ∧ findExecutable extractionDir (extracted env) "Terraria.exe"
         = Some execFile
       ∧ world_of run
         = with_extractionPaths
             (<[gameId :=
                  JObj (map_of
                    [ ("path", JStr (path_to_string extractionDir));
                      ("execTarget", JStr (path_to_string execFile)) ])]>
                (extractionPaths w)) w).
Proof.
  intros run extractionDir. subst run extractionDir.
  unfold handleExtraction, try_catch, mbind, M_bind, lift, mret, M_ret,
    send_unguarded, send, send_each, throw.
  destruct (download_listing env) as [archives|e] eqn:Hls;
    [|left; eexists; split; reflexivity].
  destruct (List.find _ archives) as [rarFile|] eqn:Hrar;
    [|left; eexists; split; reflexivity].
  destruct (extractionDir_exists env);
    [|destruct (mkdir_result env) as [[]|e];
      [|left; eexists; split; reflexivity]].
  all: destruct (destroyed_at_start env);
    [left; eexists; split; reflexivity|].
  all: destruct (decoder_end env) as [text errno|code] eqn:Hend;
    [left; simpl; eexists; split; reflexivity|].
  all: destruct (on_close_cases (path_join downloadPath "extracted")
                   gameId env code w)
      as [[text Hc]|(file & files & execFile & -> & Hex & Hfind & Hres & Hw)];
    [left; rewrite Hc; eexists; split; reflexivity|].
  all: right; exists archives, rarFile, file, files, execFile.
  all: unfold result_of, world_of in Hres, Hw.
  all: destruct (on_close _ gameId env (Some 0) w) as [[[r|e] w'] sent];
    simpl in *; [|done].
  all: injection Hres as ->; subst w'; by repeat split.
Qed.

(** An extraction whose output lacks the target: rejected, nothing
    entered. *)
Example extraction_without_target :
  let env := {| download_listing := Normal ["terraria.rar"];
                extractionDir_exists := false;
                mkdir_result := Normal ();
                destroyed_at_start := false;
                stdout_chunks := [ (false, "100%") ];
                decoder_end := Closed (Some 0);
                extracted := Entries [ File "readme.txt" ];
                destroyed_at_end := false |} in
  let run := handleExtraction ["downloads"; "terraria-1"] "terraria-1" env
               Samples.absent_world in
  result_of run
  = Normal (Rejected "Target executable not found in extracted files")
  ∧ world_of run = Samples.absent_world.
Proof. vm_compute. by split. Qed.

(** A decoder that exits with status 2: rejected with the code in the
    message, nothing entered. *)
Example extraction_decoder_failure :
  let env := {| download_listing := Normal ["terraria.rar"];
                extractionDir_exists := true;
                mkdir_result := Normal ();
                destroyed_at_start := false;
                stdout_chunks := [];
                decoder_end := Closed (Some 2);
                extracted := Entries [ File "Terraria.exe" ];
                destroyed_at_end := false |} in
  let run := handleExtraction ["downloads"; "terraria-1"] "terraria-1" env
               Samples.absent_world in
  result_of run = Normal (Rejected "7-Zip extraction failed with code 2")
  ∧ world_of run = Samples.absent_world.
Proof. vm_compute. by split. Qed.

End ExtractionFacts.

Section LaunchFacts.
Import Js Ipc ProfileStore Transfer Launch Reading.


(** What [loadProfile] returns always has a library, whose elements
    are arrays or objects with a playtime; and a load leaves the file
    and its permissions as they are. *)
Lemma loadProfile_shape w :
  ∃ pm games w1 sent,
    loadProfile w = (Normal (JObj pm), w1, sent)
    ∧ pm !! "library" = Some (JArr games)
    ∧ Forall record_like games
    ∧ disk w1 = disk w ∧ writable w1 = writable w ∧ windows w1 = windows w
    ∧ playtime_updates sent = [].
Proof.
  destruct (loadProfile_cases w)
    as [->|(m&g&u&g'&u'&Hd&Hlib&Hu&Hg&Hr&_&_& ->)].
  - eexists _, [], _, _. split; [reflexivity|].
    split; [vm_compute; reflexivity|]. by repeat split.
  - eexists _, g', _, _. split; [reflexivity|].
    split; [by lookup_fields|]. split; [|repeat split].
    + apply mapM_backfill_Forall2 in Hg. clear Hlib.
      induction Hg as [|x y xs ys Hxy _ IH]; [constructor|].
      constructor; [|done].
      apply backfill_playtime_inv in Hxy as [(l&_&->)|(r&_&->)].
      * left. by eexists.
      * right. eexists. split; [done|]. rewrite lookup_insert_eq. by eexists.
    + unfold playtime_updates. induction (windows w); [done|]. done.
Qed.

Lemma findIndex_total gameId games :
  Forall record_like games →
  ∃ idx, findIndex gameId games = Normal idx
         ∧ match idx with
           | Some i => ∃ r, first_match gameId games i r
           | None => no_match gameId games
           end.
Proof.
  induction 1 as [|game rest Hgame _ (idx & Hidx & Hspec)].
  { exists None. split; [done|]. by intros g ?%elem_of_nil. }
  simpl.
  assert (Hget : get_prop game "id" = Normal (peek game "id")).
  { by destruct Hgame as [(l & ->)|(r & -> & _)]. }
  rewrite Hget. simpl.
  destruct (strict_equal_string (peek game "id") gameId) eqn:Heq.
  - exists (Some 0%nat). split; [done|].
    destruct (peek game "id") as [[|b|n|s|l|o]|] eqn:Hid; try done.
    simpl in Heq. apply String.eqb_eq in Heq as ->.
    destruct game as [|b|n|s|l|r]; try done.
    exists r. split; [done|]. split; [done|]. intros j g Hj. lia.
  - rewrite Hidx. simpl.
    assert (Hne : peek game "id" ≠ Some (JStr gameId)).
    { intros Hid. rewrite Hid in Heq. simpl in Heq.
      by rewrite String.eqb_refl in Heq. }
    destruct idx as [i|]; simpl.
    + exists (Some (S i)). split; [done|].
      destruct Hspec as (r & Hi & Hid & Hbefore).
      exists r. split; [done|]. split; [done|].
      intros [|j] g Hj; simpl.
      * by intros [= <-].
      * apply Hbefore. lia.
    + exists None. split; [done|].
      intros g [->|Hin]%elem_of_cons; [done|by apply Hspec].
Qed.

(** The callback, step by step, after a load that returned [JObj pm]. *)
Lemma on_exit_run gameId startTime endTime error w pm games w1 sent1 idx :
  loadProfile w = (Normal (JObj pm), w1, sent1) →
  pm !! "library" = Some (JArr games) →
  findIndex gameId games = Normal idx →
  (∀ i, idx = Some i → ∃ r, games !! i = Some (JObj r)) →
  let sec := round_ms_to_seconds (endTime - startTime) in
  let saved := with_paths (extractionPaths w1)
                 (JObj (accounted gameId sec pm games idx)) in
  let w2 := if writable w1 then with_disk (Parsed saved) w1 else w1 in
  on_exit gameId startTime endTime error w
  = (Normal (Fulfilled (launch_reply error)), w2,
     sent1 ++ match error with
              | Some _ => []
              | None => replicate (windows w2) (UpdatePlaytime gameId)
              end).
Proof.
  intros Hload Hlib Hidx Hrec sec saved w2.
  unfold on_exit. fold sec.
  unfold mbind at 1, M_bind at 1. rewrite Hload.
  unfold mbind at 1, M_bind at 1, lift at 1. simpl get_prop. rewrite Hlib.
  unfold mbind at 1, M_bind at 1, lift at 1. rewrite Hidx.
  assert (Hupd :
    (match idx with
     | Some i =>
         games' ← lift (add_playtime games i sec);
         lift (set_prop (JObj pm) "library" (JArr games'))
     | None => mret (JObj pm)
     end : M json) w1
    = (Normal (JObj (accounted gameId sec pm games idx)), w1, [])).
  { destruct idx as [i|]; [|done].
    destruct (Hrec i eq_refl) as [r Hr].
    unfold mbind, M_bind, lift, add_playtime, accounted. rewrite Hr.
    done. }
  unfold mbind at 1, M_bind at 1. rewrite Hupd.
  unfold mbind at 1, M_bind at 1. rewrite saveProfile_object.
  fold saved. fold w2.
  destruct error as [text|]; simpl.
  - by rewrite !app_nil_r.
  - unfold mbind, M_bind, broadcast. simpl. by rewrite !app_nil_r.
Qed.

(** The handler, once the lookup of the installed path has succeeded. *)
Lemma launch_game_found gameId startTime endTime error w data execTarget :
  extractionPaths w !! gameId = Some (JObj data) →
  data !! "execTarget" = Some (JStr execTarget) →
  execTarget ≠ "" →
  launch_game gameId startTime endTime (Ended error) w
  = run_callback Pending (on_exit gameId startTime endTime error) w.
Proof.
  intros Hdata Hexec Hne.
  unfold launch_game, launch_executor, mbind, M_bind, get_world.
  rewrite Hdata. simpl.
  rewrite Hexec. simpl.
  destruct (String.eqb_spec execTarget ""); [done|]. simpl.
  by destruct (run_callback Pending _ w) as [[r w'] sent].
Qed.







(** Beyond the safe integers the sum is rounded as a double is: one
    second added to a playtime of 2^53 seconds leaves 2^53, and ties go
    to the even significand. *)
Example playtime_sum_is_rounded :
  js_add_number (JNum (2 ^ 53)) 1 = JNum (2 ^ 53)
  ∧ js_add_number (JNum (2 ^ 53 + 2)) 1 = JNum (2 ^ 53 + 4)
  ∧ js_add_number (JNum (- 2 ^ 53)) (-1) = JNum (- 2 ^ 53)
  ∧ js_add_number (JNum (2 ^ 53 - 2)) 1 = JNum (2 ^ 53 - 1).
Proof. vm_compute. by repeat split. Qed.

(** The same launch, evaluated: 5499 ms count as 5 s, the record goes
    from 12 to 17 seconds, and the answer is the failure of the
    process. *)
Example launch_after_error_evaluated :
  let run := launch_game "terraria-1" 1000 6499
               (Ended (Some "exit code 1")) Samples.complete_world in
  result_of run
  = Normal (Outcome (Fulfilled (Reply false "Launch failed: exit code 1")) [])
  ∧ (library_of <$> match disk (world_of run) with
                    | Parsed saved => Some saved
                    | _ => None
                    end)
    = Some [ JObj (map_of [ ("id", JStr "terraria-1");
                            ("playtime", JNum 17) ]) ]
  ∧ playtime_updates (sent_of run) = [].
Proof. vm_compute. by repeat split. Qed.

Lemma saveProfile_sent profileData w :
  sent_of (saveProfile profileData w) = [].
Proof.
  unfold saveProfile, try_catch, mbind, M_bind, get_world, lift,
    writeFileSync.
  simpl. destruct (set_prop profileData _ _) as [p|e]; simpl; [|done].
  by destruct (writable w).
Qed.

Lemma playtime_updates_app a b :
  playtime_updates (a ++ b) = playtime_updates a ++ playtime_updates b.
Proof. apply omap_app. Qed.

(** C6: when the launched process ends with an error, the callback
    returns right after resolving the promise and the statement that
    sends [update-playtime] is never reached: whatever the state and
    whatever the item, a launch that ends with an error sends no
    playtime update, although it has updated and persisted the
    playtime. *)
Theorem launch_error_sends_no_update gameId startTime endTime text w :
  playtime_updates
    (sent_of (launch_game gameId startTime endTime (Ended (Some text)) w))
  = [].
Proof.
  unfold launch_game, launch_executor, mbind at 1, M_bind at 1, get_world.
  assert (Hcb : playtime_updates
                  (sent_of (run_callback Pending
                     (on_exit gameId startTime endTime (Some text)) w)) = []).
  { unfold run_callback.
    destruct (loadProfile_shape w)
      as (pm & games & w1 & sent1 & Hload & Hlib & Hgames & _ & _ & _ & Hs).
    destruct (findIndex_total gameId games Hgames) as (idx & Hidx & Hspec).
    rewrite (on_exit_run gameId startTime endTime (Some text) w pm games w1
               sent1 idx Hload Hlib Hidx).
    - simpl. by rewrite app_nil_r.
    - intros i ->. destruct Hspec as (r & Hr & _). by exists r. }
  destruct (extractionPaths w !! gameId) as [gameData|]; [|done].
  destruct (truthy (Some gameData)); [|done].
  destruct (get_prop gameData "execTarget") as [[[|b|n|s|l|o]|]|e];
    simpl; try done.
  - by destruct b.
  - by destruct (n =? 0).
  - destruct (String.eqb s ""); simpl; [done|].
    unfold sent_of in *.
    destruct (run_callback Pending _ w) as [[r w'] sent]. simpl in *.
    exact Hcb.
Qed.

(** Without an error the update is sent, once per open window. *)
Example launch_success_sends_update :
  playtime_updates
    (sent_of (launch_game "terraria-1" 1000 6499 (Ended None)
                Samples.complete_world))
  = ["terraria-1"].
Proof. vm_compute. reflexivity. Qed.

End LaunchFacts.

Section TransferFacts.
Import Js Ipc Locator ProfileStore Extraction Transfer.

(** C2: the callbacks of the handler report a failure by calling
    [reject], an identifier that nothing binds (the executor of the
    promise takes [resolve] alone).  So for every valid item id, every
    state and every sequence of progress events, when the engine
    reports an error, or when deregistering the finished transfer
    fails, the call throws a [ReferenceError] inside the callback and
    the promise of the handler stays pending: no [Failed] result ever
    reaches the caller. *)
Theorem transfer_failure_never_settles downloads (c : ascii) (rest : string)
    ticks text removeError env w :
  let gameId := Some (JStr (String c rest)) in
  let stuck := Outcome Pending ["ReferenceError: reject is not defined"] in
  result_of (start_torrent_download downloads gameId
               {| download_events := ticks;
                  transfer_end := TorrentError text |} w)
  = Normal stuck
  ∧ result_of (start_torrent_download downloads gameId
                 {| download_events := ticks;
                    transfer_end := TorrentDone (Some removeError) env |} w)
    = Normal stuck.
Proof. split; reflexivity. Qed.

(** The same on a concrete transfer; a transfer whose extraction
    succeeds, by contrast, is answered. *)
Example transfer_error_evaluated :
  result_of (start_torrent_download ["downloads"] (Some (JStr "terraria-1"))
               {| download_events := [];
                  transfer_end := TorrentError "tracker unreachable" |}
               Samples.absent_world)
  = Normal (Outcome Pending ["ReferenceError: reject is not defined"]).
Proof. reflexivity. Qed.

Example transfer_success_evaluated :
  let env := {| download_listing := Normal ["terraria.rar"];
                extractionDir_exists := true;
                mkdir_result := Normal ();
                destroyed_at_start := false;
                stdout_chunks := [ (false, " 10%"); (false, " 100%") ];
                decoder_end := Closed (Some 0);
                extracted := Entries [ File "Terraria.exe" ];
                destroyed_at_end := false |} in
  let run := start_torrent_download ["downloads"] (Some (JStr "terraria-1"))
               {| download_events := [];
                  transfer_end := TorrentDone None env |}
               Samples.absent_world in
  result_of run
  = Normal (Outcome (Fulfilled
              (Reply true "Download and extraction completed")) [])
  ∧ sent_of run
    = [ DecompressionStart "terraria-1";
        DecompressionProgress "terraria-1" 10;
        DecompressionProgress "terraria-1" 100;
        DecompressionComplete "terraria-1" ]
  ∧ extractionPaths (world_of run) !! "terraria-1"
    = Some (JObj (map_of
        [ ("path", JStr "downloads/terraria-1/extracted");
          ("execTarget", JStr "downloads/terraria-1/extracted/Terraria.exe") ])).
Proof. vm_compute. by repeat split. Qed.

End TransferFacts.


(* ===================================================================== *)
(** * Part III: further properties of the code                             *)
(* ===================================================================== *)

Section LocatorMore.
Import Locator Notions.

Lemma matches_of_entries_app directory l1 l2 targetExe :
  matches_of_entries directory (l1 ++ l2) targetExe
  = matches_of_entries directory l1 targetExe
    ++ matches_of_entries directory l2 targetExe.
Proof.
  induction l1 as [|[n|n c|n] rest IH]; simpl; [done|..];
    by rewrite IH, ?app_assoc.
Qed.

Lemma matches_of_entries_Permutation directory files files' targetExe :
  files ≡ₚ files' →
  matches_of_entries directory files targetExe
  ≡ₚ matches_of_entries directory files' targetExe.
Proof.
  induction 1 as [|x l l' _ IH|x y l|l l' l'' _ IH1 _ IH2].
  - done.
  - change (x :: l) with ([x] ++ l). change (x :: l') with ([x] ++ l').
    rewrite !matches_of_entries_app. by rewrite IH.
  - change (y :: x :: l) with ([y] ++ [x] ++ l).
    change (x :: y :: l) with ([x] ++ [y] ++ l).
    rewrite !matches_of_entries_app.
    rewrite !app_assoc. f_equiv. apply Permutation_app_comm.
  - by etrans.
Qed.

Lemma findExecutable_unique directory listing targetExe q :
  all_matches directory listing targetExe = [q] →
  findExecutable directory listing targetExe = Some q.
Proof.
  intros Hq.
  destruct (findExecutable_complete listing directory targetExe q) as [p Hp].
  { rewrite Hq. apply list_elem_of_here. }
  pose proof (findExecutable_sound listing directory targetExe p Hp) as Hin.
  rewrite Hq in Hin. apply list_elem_of_singleton in Hin. by subst.
Qed.

(** When the tree holds exactly one match, that match is the result, in
    whatever order the root directory is listed. *)
Theorem findExecutable_order_irrelevant_when_unique root files files'
    targetExe q :
  files ≡ₚ files' →
  all_matches root (Entries files) targetExe = [q] →
  findExecutable root (Entries files) targetExe = Some q
  ∧ findExecutable root (Entries files') targetExe = Some q.
Proof.
  intros Hperm Hq. split; [by apply findExecutable_unique|].
  apply findExecutable_unique.
  rewrite all_matches_unfold in Hq |- *.
  pose proof (matches_of_entries_Permutation root files files' targetExe Hperm)
    as Hm.
  rewrite Hq in Hm. symmetry in Hm. by apply Permutation_singleton_r in Hm.
Qed.

Lemma findExecutable_order_irrelevant_when_unique_witness :
  [ Directory "docs" (Entries [ File "readme.txt" ]);
    Directory "bin" (Entries [ File "Terraria.exe" ]) ]
  ≡ₚ [ Directory "bin" (Entries [ File "Terraria.exe" ]);
       Directory "docs" (Entries [ File "readme.txt" ]) ]
  ∧ all_matches ["extracted"]
      (Entries [ Directory "docs" (Entries [ File "readme.txt" ]);
                 Directory "bin" (Entries [ File "Terraria.exe" ]) ])
      "terraria.exe"
    = [ ["extracted"; "bin"; "Terraria.exe"] ]
  ∧ findExecutable ["extracted"]
      (Entries [ Directory "bin" (Entries [ File "Terraria.exe" ]);
                 Directory "docs" (Entries [ File "readme.txt" ]) ])
      "terraria.exe"
    = Some ["extracted"; "bin"; "Terraria.exe"].
Proof.
  assert (Hperm :
    [ Directory "docs" (Entries [ File "readme.txt" ]);
      Directory "bin" (Entries [ File "Terraria.exe" ]) ]
    ≡ₚ [ Directory "bin" (Entries [ File "Terraria.exe" ]);
         Directory "docs" (Entries [ File "readme.txt" ]) ])
    by apply perm_swap.
  split; [exact Hperm|]. split; [reflexivity|].
  exact (proj2 (findExecutable_order_irrelevant_when_unique
                  ["extracted"] _ _ "terraria.exe" _ Hperm eq_refl)).
Defined.

Lemma name_matches_lower name t1 t2 :
  toLowerCase t1 = toLowerCase t2 →
  name_matches name t1 = name_matches name t2.
Proof. intros H. unfold name_matches. by rewrite H. Qed.

Lemma direct_match_lower directory files t1 t2 :
  toLowerCase t1 = toLowerCase t2 →
  direct_match directory files t1 = direct_match directory files t2.
Proof.
  intros H. induction files as [|file rest IH]; simpl; [done|].
  by rewrite (name_matches_lower _ t1 t2 H), IH.
Qed.

(** The search does not tell apart two target names that differ only in
    the case of their letters. *)
Theorem findExecutable_case_insensitive listing :
  ∀ directory t1 t2,
    toLowerCase t1 = toLowerCase t2 →
    findExecutable directory listing t1 = findExecutable directory listing t2.
Proof.
  induction listing as [|files IH] using readdir_result_ind';
    intros directory t1 t2 H; [done|].
  rewrite !findExecutable_unfold.
  rewrite (direct_match_lower directory files t1 t2 H).
  destruct (direct_match directory files t2); [done|].
  induction IH as [|file rest Hfile _ IHrest]; simpl; [done|].
  destruct file as [n|n c|n]; [done| |done].
  by rewrite (Hfile (path_join directory n) t1 t2 H), IHrest.
Qed.

Lemma findExecutable_case_insensitive_witness :
  toLowerCase "TERRARIA.EXE" = toLowerCase "Terraria.exe"
  ∧ findExecutable ["extracted"] deep_first_tree "TERRARIA.EXE"
    = findExecutable ["extracted"] deep_first_tree "Terraria.exe".
Proof.
  split; [reflexivity|].
  exact (findExecutable_case_insensitive deep_first_tree ["extracted"]
           "TERRARIA.EXE" "Terraria.exe" eq_refl).
Defined.

Lemma direct_match_shape directory files targetExe p :
  direct_match directory files targetExe = Some p →
  ∃ name, p = directory ++ [name] ∧ File name ∈ files
          ∧ name_matches name targetExe = true.
Proof.
  induction files as [|file rest IH]; simpl; [done|].
  destruct (isFile file && name_matches (dirent_name file) targetExe) eqn:E.
  - intros [= <-]. apply andb_prop in E as [Hfile Hname].
    destruct file as [n|n c|n]; try done.
    exists n. split; [done|]. split; [apply list_elem_of_here|done].
  - intros (name & -> & Hin & Hname)%IH.
    exists name. split; [done|]. split; [by apply list_elem_of_further|done].
Qed.

(** What the search returns lies under the directory searched, and its
    last segment is a name that matches the target without regard to
    case. *)
Theorem findExecutable_result_shape listing :
  ∀ directory targetExe p,
    findExecutable directory listing targetExe = Some p →
    ∃ below name,
      p = directory ++ below ++ [name]
      ∧ toLowerCase name = toLowerCase targetExe.
Proof.
  induction listing as [|files IH] using readdir_result_ind';
    intros directory targetExe p; [done|].
  rewrite findExecutable_unfold.
  destruct (direct_match directory files targetExe) as [d|] eqn:Hd.
  { intros [= <-].
    apply direct_match_shape in Hd as (name & -> & _ & Hname).
    exists [], name. split; [done|].
    unfold name_matches in Hname. by apply bool_decide_eq_true in Hname. }
  clear Hd.
  induction IH as [|file rest Hfile _ IHrest]; simpl; [done|].
  destruct file as [n|n c|n]; [done| |done].
  destruct (findExecutable (path_join directory n) c targetExe) as [e|] eqn:He;
    [|done].
  intros [= <-]. apply Hfile in He as (below & name & -> & Hname).
  exists (n :: below), name. split; [|done].
  unfold path_join. by rewrite <-!app_assoc.
Qed.

Lemma findExecutable_result_shape_witness :
  findExecutable ["extracted"] deep_first_tree "Terraria.exe"
  = Some ["extracted"; "a"; "b"; "Terraria.exe"]
  ∧ ∃ below name,
      ["extracted"; "a"; "b"; "Terraria.exe"] = ["extracted"] ++ below ++ [name]
      ∧ toLowerCase name = toLowerCase "Terraria.exe".
Proof.
  split; [reflexivity|].
  exact (findExecutable_result_shape deep_first_tree ["extracted"]
           "Terraria.exe" _ eq_refl).
Defined.

Lemma direct_match_searchable directory files targetExe :
  direct_match directory (List.filter searchable files) targetExe
  = direct_match directory files targetExe.
Proof.
  induction files as [|[n|n [|l]|n] rest IH]; simpl; try done.
  by rewrite IH.
Qed.

Lemma subdirectories_searchable directory files targetExe :
  subdirectories directory (List.filter searchable files) targetExe
  = subdirectories directory files targetExe.
Proof.
  induction files as [|[n|n [|l]|n] rest IH]; simpl; try done.
  by rewrite IH.
Qed.

(** Entries that are neither regular files nor directories, and
    directories that cannot be read, count for nothing: the search gives
    the same result on the listing without them. *)
Theorem findExecutable_skips_unsearchable directory files targetExe :
  findExecutable directory (Entries (List.filter searchable files)) targetExe
  = findExecutable directory (Entries files) targetExe.
Proof.
  rewrite !findExecutable_unfold.
  by rewrite direct_match_searchable, subdirectories_searchable.
Qed.

(** A directory or a special file that bears the target's name is not a
    result: only regular files are. *)
Example findExecutable_only_regular_files :
  findExecutable ["extracted"]
    (Entries [ Directory "Terraria.exe" (Entries [ File "data.bin" ]);
               Other "Terraria.exe" ])
    "Terraria.exe"
  = None.
Proof. reflexivity. Qed.

End LocatorMore.

Section ProgressMore.
Import Ipc Progress Notions.

Lemma digit_value_bounds c : is_digit c = true → 0 ≤ digit_value c ≤ 9.
Proof.
  unfold is_digit, digit_value.
  intros [H1 H2]%andb_prop.
  apply N.leb_le in H1, H2. lia.
Qed.

Lemma length_list_ascii_of_string s :
  length (String.list_ascii_of_string s) = String.length s.
Proof. induction s as [|c r IH]; simpl; [done|by rewrite IH]. Qed.

Lemma digits_then_percent_inv n s digits :
  digits_then_percent n s = Some digits →
  length (String.list_ascii_of_string digits) = n
  ∧ forallb is_digit (String.list_ascii_of_string digits) = true.
Proof.
  unfold digits_then_percent.
  destruct (_ && _ && _) eqn:E; [|done].
  intros [= <-]. apply andb_prop in E as [[H1 H2]%andb_prop _].
  apply Nat.eqb_eq in H1. split; [|done].
  by rewrite length_list_ascii_of_string.
Qed.

Lemma regex_match_inv output digits :
  regex_match output = Some digits →
  (1 ≤ length (String.list_ascii_of_string digits) ≤ 3)%nat
  ∧ forallb is_digit (String.list_ascii_of_string digits) = true.
Proof.
  induction output as [|c rest IH]; simpl; unfold match_here.
  - destruct (digits_then_percent 3 "") eqn:E3; [done|].
    destruct (digits_then_percent 2 "") eqn:E2; [done|].
    destruct (digits_then_percent 1 "") eqn:E1; done.
  - destruct (digits_then_percent 3 (String c rest)) as [d|] eqn:E3.
    { intros [= <-]. apply digits_then_percent_inv in E3 as [-> ?].
      split; [lia|done]. }
    destruct (digits_then_percent 2 (String c rest)) as [d|] eqn:E2.
    { intros [= <-]. apply digits_then_percent_inv in E2 as [-> ?].
      split; [lia|done]. }
    destruct (digits_then_percent 1 (String c rest)) as [d|] eqn:E1.
    { intros [= <-]. apply digits_then_percent_inv in E1 as [-> ?].
      split; [lia|done]. }
    exact IH.
Qed.

Lemma parseInt_bounds digits :
  (length (String.list_ascii_of_string digits) ≤ 3)%nat →
  forallb is_digit (String.list_ascii_of_string digits) = true →
  0 ≤ parseInt digits ≤ 999.
Proof.
  unfold parseInt.
  destruct (String.list_ascii_of_string digits) as [|a [|b [|c [|d l]]]];
    simpl; intros Hlen Hd; try lia.
  - apply andb_prop in Hd as [Ha%digit_value_bounds _]. lia.
  - apply andb_prop in Hd as [Ha%digit_value_bounds Hd].
    apply andb_prop in Hd as [Hb%digit_value_bounds _]. lia.
  - apply andb_prop in Hd as [Ha%digit_value_bounds Hd].
    apply andb_prop in Hd as [Hb%digit_value_bounds Hd].
    apply andb_prop in Hd as [Hc%digit_value_bounds _]. lia.
Qed.

Lemma parsed_percentage_bounds output p :
  parsed_percentage output = Some p → 0 ≤ p ≤ 999.
Proof.
  unfold parsed_percentage.
  destruct (regex_match output) as [digits|] eqn:E; [|done].
  intros [= <-]. apply regex_match_inv in E as [[_ Hlen] Hd].
  by apply parseInt_bounds.
Qed.

Lemma on_stdout_data_parsed gameId destroyed output last :
  on_stdout_data gameId destroyed output last
  = match parsed_percentage output with
    | Some p =>
        if p >=? last
        then (p, if destroyed then [] else [DecompressionProgress gameId p])
        else (last, [])
    | None => (last, [])
    end.
Proof.
  unfold on_stdout_data, parsed_percentage.
  by destruct (regex_match output).
Qed.

(** A percentage sent is a number from 0 to 999: the pattern takes up to
    three digits and nothing caps the value at 100. *)
Theorem extraction_progress_range gameId (chunks : list (bool * string)) :
  Forall (λ p, 0 ≤ p ≤ 999) (percentages (extraction_progress gameId chunks)).
Proof.
  unfold extraction_progress. generalize 0 at 2 as last.
  induction chunks as [|[destroyed output] rest IH]; intros last; simpl.
  { constructor. }
  rewrite on_stdout_data_parsed.
  destruct (parsed_percentage output) as [p|] eqn:Hp.
  - pose proof (parsed_percentage_bounds output p Hp) as Hb.
    destruct (p >=? last).
    + specialize (IH p).
      destruct (on_stdout_chunks gameId rest p) as [final later]. simpl in *.
      rewrite percentages_app. apply Forall_app. split; [|done].
      destruct destroyed; simpl; repeat constructor; lia.
    + specialize (IH last).
      by destruct (on_stdout_chunks gameId rest last) as [final later].
  - specialize (IH last).
    by destruct (on_stdout_chunks gameId rest last) as [final later].
Qed.

(** Nothing stops a value above 100 from being sent. *)
Example extraction_progress_above_100 :
  extraction_progress "terraria-1" [ (false, "1234%") ]
  = [ DecompressionProgress "terraria-1" 234 ].
Proof. reflexivity. Qed.

(** A chunk gives rise to one message at most, whatever number of
    percentages it holds, and to none when the window is gone: the
    messages of a run are no more than its chunks that arrived while the
    sender was alive. *)
Theorem extraction_progress_one_per_chunk gameId (chunks : list (bool * string)) :
  (length (extraction_progress gameId chunks)
   ≤ length (List.filter (λ chunk, negb chunk.1) chunks))%nat.
Proof.
  unfold extraction_progress. generalize 0 at 1 as last.
  induction chunks as [|[destroyed output] rest IH]; intros last; simpl.
  { done. }
  pose proof (on_stdout_data_cases gameId destroyed output last) as Hone.
  rewrite on_stdout_data_parsed in Hone |- *.
  destruct (parsed_percentage output) as [p|].
  - destruct (p >=? last).
    + specialize (IH p).
      destruct (on_stdout_chunks gameId rest p) as [final later]. simpl in *.
      destruct destroyed; simpl; lia.
    + specialize (IH last).
      destruct (on_stdout_chunks gameId rest last) as [final later].
      simpl in *. destruct destroyed; simpl; lia.
  - specialize (IH last).
    destruct (on_stdout_chunks gameId rest last) as [final later].
    simpl in *. destruct destroyed; simpl; lia.
Qed.

(** [lastPercentage] is the running maximum: after any chunks it is the
    greatest of its initial value and the percentages read, whether or
    not they could be sent. *)
Theorem lastPercentage_is_running_maximum gameId
    (chunks : list (bool * string)) last :
  fst (on_stdout_chunks gameId chunks last)
  = fold_left Z.max (omap (λ chunk, parsed_percentage chunk.2) chunks) last.
Proof.
  revert last.
  induction chunks as [|[destroyed output] rest IH]; intros last; simpl.
  { done. }
  rewrite on_stdout_data_parsed.
  destruct (parsed_percentage output) as [p|]; simpl.
  - destruct (p >=? last) eqn:E.
    + apply Z.geb_le in E. specialize (IH p).
      destruct (on_stdout_chunks gameId rest p) as [final later]. simpl in *.
      rewrite IH. f_equal. lia.
    + rewrite Z.geb_leb in E. apply Z.leb_gt in E. specialize (IH last).
      destruct (on_stdout_chunks gameId rest last) as [final later].
      simpl in *. rewrite IH. f_equal. lia.
  - specialize (IH last).
    by destruct (on_stdout_chunks gameId rest last) as [final later].
Qed.

(** A percentage read while the window was gone still raises the bar for
    what is sent later. *)
Example unsent_percentage_still_counts :
  extraction_progress "terraria-1" [ (true, "60%"); (false, "40%") ] = [].
Proof. reflexivity. Qed.

End ProgressMore.

Section ProfileMore.
Import Js Ipc ProfileStore Reading Handlers Notions.

(** The validated branch, when each of its steps succeeds. *)
Lemma loadProfile_success w m games u games' u' :
  disk w = Parsed (JObj m) →
  m !! "library" = Some (JArr games) →
  m !! "user" = Some u →
  typeof_object (Some u) = true →
  mapM backfill_playtime games = Normal games' →
  rebuild_user u = Normal u' →
  entries_of (m !! "extractionPaths") !! "hasOwnProperty" = None →
  loadProfile w
  = (Normal (JObj (<["user" := u']> (<["library" := JArr games']> m))),
     with_extractionPaths
       (entries_of (m !! "extractionPaths") ∪ extractionPaths w) w,
     replicate (windows w) (ProfileLoaded games')).
Proof.
  intros Hd Hlib Hu Ht Hg Hr Hown.
  unfold loadProfile, try_catch.
  rewrite (loadProfile_try_valid w m games u Hd Hlib Hu Ht).
  rewrite load_validated_run, Hg, Hr, merge_extractionPaths_run.
  destruct (m !! "extractionPaths") as [[|b|n|s|l|entries]|] eqn:He;
    simpl in *; try done.
  by rewrite Hown.
Qed.

(** [loadProfile_cases], with what the validation established. *)
Lemma loadProfile_outcome w :
  loadProfile w = (Normal defaultProfile, w, [])
  ∨ ∃ m games u games' u',
      disk w = Parsed (JObj m)
      ∧ m !! "library" = Some (JArr games)
      ∧ m !! "user" = Some u
      ∧ typeof_object (Some u) = true
      ∧ mapM backfill_playtime games = Normal games'
      ∧ rebuild_user u = Normal u'
      ∧ entries_of (m !! "extractionPaths") !! "hasOwnProperty" = None.
Proof.
  destruct (disk w) as [| | | |v] eqn:Hd;
    try (left; apply loadProfile_unusable; by rewrite Hd).
  destruct (decide (structurally_invalid v)) as [Hv|Hv];
    [left; apply loadProfile_unusable; by rewrite Hd|].
  destruct (structurally_valid_inv v Hv) as (m & games & u & -> & Hlib & Hu & Ht).
  pose proof (loadProfile_try_valid w m games u Hd Hlib Hu Ht) as Htry.
  unfold loadProfile, try_catch. rewrite Htry, load_validated_run.
  destruct (mapM backfill_playtime games) as [games'|e] eqn:Hg; [|by left].
  destruct (rebuild_user u) as [u'|e] eqn:Hr; [|by left].
  rewrite merge_extractionPaths_run.
  destruct (m !! "extractionPaths") as [[|b|n|s|l|entries]|] eqn:He; simpl.
  6: destruct (entries !! "hasOwnProperty") eqn:Hh; [by left|].
  all: right; exists m, games, u, games', u'; rewrite ?He; simpl.
  all: repeat split; try done.
  apply index_entries_hasOwnProperty.
Qed.

(** [saveProfile] never throws and sends nothing; of the state it
    changes the file at most, and not even that when the file cannot be
    written or when it is handed [null] or a primitive value. *)
Theorem saveProfile_swallows_errors profileData w :
  ∃ d, saveProfile profileData w = (Normal (), with_disk d w, [])
       ∧ (writable w = false → d = disk w)
       ∧ (not_an_object profileData = true → d = disk w).
Proof.
  unfold saveProfile, try_catch, mbind, M_bind, get_world, lift, writeFileSync.
  simpl.
  destruct profileData as [|b|n|s|l|m]; simpl;
    try (exists (disk w); split; [by destruct w|done]).
  all: destruct (writable w) eqn:Hw; simpl;
    [eexists; split; [reflexivity|done]
    |exists (disk w); split; [by destruct w|done]].
Qed.

Lemma saveProfile_object_world m w :
  writable w = true →
  world_of (saveProfile (JObj m) w)
  = with_disk (Parsed (JObj (<["extractionPaths" := JObj (extractionPaths w)]> m))) w.
Proof. intros Hw. rewrite saveProfile_object. simpl. by rewrite Hw. Qed.

(** What [saveProfile] writes as installed paths is the table in memory,
    whatever the profile it is handed says under [extractionPaths]. *)
Theorem saveProfile_writes_the_table m w :
  writable w = true →
  persisted_entries (disk (world_of (saveProfile (JObj m) w)))
  = extractionPaths w.
Proof.
  intros Hw. rewrite (saveProfile_object_world m w Hw). simpl.
  by rewrite lookup_insert_eq.
Qed.

Lemma saveProfile_writes_the_table_witness :
  writable Samples.complete_world = true
  ∧ persisted_entries
      (disk (world_of (saveProfile
         (JObj (map_of [ ("extractionPaths",
                          JObj (map_of [ ("forged", JStr "C:/evil.exe") ])) ]))
         Samples.complete_world)))
    = extractionPaths Samples.complete_world.
Proof.
  split; [reflexivity|].
  exact (saveProfile_writes_the_table _ Samples.complete_world eq_refl).
Defined.

(** A load right after a save leaves the table as it is: everything the
    file lists is already there. *)
Theorem load_after_save_keeps_table m w :
  writable w = true →
  extractionPaths (world_of (loadProfile (world_of (saveProfile (JObj m) w))))
  = extractionPaths w.
Proof.
  intros Hw.
  assert (Hp : persisted_entries (disk (world_of (saveProfile (JObj m) w)))
               = extractionPaths w).
  { rewrite (saveProfile_object_world m w Hw). simpl.
    by rewrite lookup_insert_eq. }
  set (w1 := world_of (saveProfile (JObj m) w)) in *.
  assert (Ht : extractionPaths w1 = extractionPaths w).
  { unfold w1. by rewrite (saveProfile_object_world m w Hw). }
  destruct (loadProfile_world w1) as [->| ->]; [done|]. simpl.
  rewrite Hp, Ht. apply (idemp_L (∪)).
Qed.

Lemma load_after_save_keeps_table_witness :
  writable Samples.newly_installed_world = true
  ∧ extractionPaths
      (world_of (loadProfile
         (world_of (saveProfile Samples.partial_file
                      Samples.newly_installed_world))))
    = extractionPaths Samples.newly_installed_world.
Proof.
  split; [reflexivity|].
  exact (load_after_save_keeps_table _ Samples.newly_installed_world eq_refl).
Defined.

(** A second load in a row changes nothing more and answers the same:
    the table it leaves, the profile it returns and what it broadcasts
    are those of the first. *)
Theorem loadProfile_twice w :
  loadProfile (world_of (loadProfile w))
  = (result_of (loadProfile w), world_of (loadProfile w),
     sent_of (loadProfile w)).
Proof.
  destruct (loadProfile_outcome w)
    as [Hdef|(m&g&u&g'&u'&Hd&Hlib&Hu&Ht&Hg&Hr&Hown)].
  { rewrite Hdef. unfold world_of, result_of, sent_of. cbn [fst snd].
    exact Hdef. }
  rewrite (loadProfile_success w m g u g' u' Hd Hlib Hu Ht Hg Hr Hown).
  unfold world_of, result_of, sent_of. cbn [fst snd].
  rewrite (loadProfile_success
             (with_extractionPaths
                (entries_of (m !! "extractionPaths") ∪ extractionPaths w) w)
             m g u g' u' Hd Hlib Hu Ht Hg Hr Hown).
  unfold with_extractionPaths. simpl.
  by rewrite (assoc_L (∪)), (idemp_L (∪)).
Qed.

(** A load never writes the file nor touches its permissions or the
    windows; it returns a profile, and it broadcasts either nothing or,
    to each open window, the library of the profile it returns. *)
Theorem loadProfile_effects w :
  ∃ profile,
    result_of (loadProfile w) = Normal profile
    ∧ disk (world_of (loadProfile w)) = disk w
    ∧ writable (world_of (loadProfile w)) = writable w
    ∧ windows (world_of (loadProfile w)) = windows w
    ∧ (sent_of (loadProfile w) = []
       ∨ sent_of (loadProfile w)
         = replicate (windows w) (ProfileLoaded (library_of profile))).
Proof.
  destruct (loadProfile_outcome w)
    as [Hdef|(m&g&u&g'&u'&Hd&Hlib&Hu&Ht&Hg&Hr&Hown)].
  { rewrite Hdef. exists defaultProfile. repeat split; by left. }
  rewrite (loadProfile_success w m g u g' u' Hd Hlib Hu Ht Hg Hr Hown).
  eexists. split; [reflexivity|]. repeat split. right.
  unfold library_of. simpl. by lookup_fields.
Qed.

(** When a parsed, valid file is loaded to the end, an installed path
    the file lists replaces the one the table had for the same item. *)
Theorem loadProfile_persisted_entry_wins w v profile (gameId : string)
    (record : json) :
  disk w = Parsed v →
  ¬ structurally_invalid v →
  result_of (loadProfile_try w) = Normal profile →
  persisted_entries (disk w) !! gameId = Some record →
  extractionPaths (world_of (loadProfile w)) !! gameId = Some record.
Proof.
  intros Hd Hv Htry Hrec.
  destruct (structurally_valid_inv v Hv) as (m&g&u&->&Hlib&Hu&Ht).
  rewrite (loadProfile_try_normal w profile Htry).
  rewrite (loadProfile_try_valid w m g u Hd Hlib Hu Ht) in Htry |- *.
  rewrite load_validated_run in Htry |- *.
  destruct (mapM backfill_playtime g) as [g'|e]; [|done].
  destruct (rebuild_user u) as [u'|e]; [|done].
  rewrite merge_extractionPaths_run in Htry |- *.
  rewrite Hd in Hrec. simpl in Hrec.
  destruct (m !! "extractionPaths") as [[|b|n|s|l|entries]|] eqn:He;
    simpl in *; try done.
  - by rewrite (lookup_union_Some_l _ _ _ _ Hrec).
  - destruct (entries !! "hasOwnProperty"); [done|]. simpl.
    by rewrite (lookup_union_Some_l _ _ _ _ Hrec).
Qed.

Lemma loadProfile_persisted_entry_wins_witness :
  (disk MoreSamples.stale_world = Parsed Samples.complete_file
   ∧ ¬ structurally_invalid Samples.complete_file
   ∧ result_of (loadProfile_try MoreSamples.stale_world)
     = Normal Samples.complete_file
   ∧ persisted_entries (disk MoreSamples.stale_world) !! "terraria-1"
     = Some Samples.installed_record)
  ∧ extractionPaths (world_of (loadProfile MoreSamples.stale_world))
      !! "terraria-1" = Some Samples.installed_record.
Proof.
  assert (Hv : ¬ structurally_invalid Samples.complete_file).
  { intros [H|[H|H]]; vm_compute in H; discriminate. }
  assert (Htry : result_of (loadProfile_try MoreSamples.stale_world)
                 = Normal Samples.complete_file) by (vm_compute; reflexivity).
  assert (Hrec : persisted_entries (disk MoreSamples.stale_world) !! "terraria-1"
                 = Some Samples.installed_record) by (vm_compute; reflexivity).
  split; [exact (conj eq_refl (conj Hv (conj Htry Hrec)))|].
  exact (loadProfile_persisted_entry_wins MoreSamples.stale_world
           Samples.complete_file Samples.complete_file "terraria-1"
           Samples.installed_record eq_refl Hv Htry Hrec).
Defined.

Lemma dom_rebuilt_user (a b c d : json) :
  dom (map_of [ ("name", a); ("level", b); ("picture", c); ("expositors", d) ])
  = user_fields.
Proof.
  unfold map_of, user_fields. simpl.
  rewrite !dom_insert_L, dom_empty_L. set_solver.
Qed.

(** When a parsed, valid file is loaded to the end, the user of the
    profile returned has the four fields [name], [level], [picture] and
    [expositors] and no other: whatever else the file says about the user
    is dropped. *)
Theorem loadProfile_user_has_four_fields w v profile :
  disk w = Parsed v →
  ¬ structurally_invalid v →
  result_of (loadProfile_try w) = Normal profile →
  ∃ u', peek profile "user" = Some (JObj u') ∧ dom u' = user_fields.
Proof.
  intros Hd Hv Htry.
  destruct (structurally_valid_inv v Hv) as (m&g&u&->&Hlib&Hu&Ht).
  rewrite (loadProfile_try_valid w m g u Hd Hlib Hu Ht) in Htry.
  rewrite load_validated_run in Htry.
  destruct (mapM backfill_playtime g) as [g'|e]; [|done].
  destruct (rebuild_user u) as [u'|e] eqn:Hr; [|done].
  destruct (merge_extractionPaths (m !! "extractionPaths") w)
    as [[[[]|e] w'] sent]; [|done].
  simpl in Htry. injection Htry as <-.
  apply rebuild_user_inv in Hr as ->.
  eexists. split; [simpl; by lookup_fields|]. apply dom_rebuilt_user.
Qed.

Lemma loadProfile_user_has_four_fields_witness :
  (disk MoreSamples.tagged_world = Parsed MoreSamples.tagged_file
   ∧ ¬ structurally_invalid MoreSamples.tagged_file
   ∧ result_of (loadProfile_try MoreSamples.tagged_world)
     = Normal MoreSamples.tagged_file_loaded)
  ∧ ∃ u', peek MoreSamples.tagged_file_loaded "user" = Some (JObj u')
          ∧ dom u' = user_fields.
Proof.
  assert (Hv : ¬ structurally_invalid MoreSamples.tagged_file).
  { intros [H|[H|H]]; vm_compute in H; discriminate. }
  assert (Htry : result_of (loadProfile_try MoreSamples.tagged_world)
                 = Normal MoreSamples.tagged_file_loaded)
    by (vm_compute; reflexivity).
  split; [exact (conj eq_refl (conj Hv Htry))|].
  exact (loadProfile_user_has_four_fields MoreSamples.tagged_world
           MoreSamples.tagged_file MoreSamples.tagged_file_loaded
           eq_refl Hv Htry).
Defined.

Lemma js_or_settled a : settled_playtime (js_or a (JNum 0)).
Proof.
  unfold settled_playtime, js_or.
  destruct a as [v|]; [|by right].
  destruct (truthy (Some v)) eqn:E; [by left|by right].
Qed.

Lemma js_or_idem a d : js_or (Some (js_or a d)) d = js_or a d.
Proof.
  unfold js_or at 1.
  destruct (truthy (Some (js_or a d))) eqn:E; [done|].
  unfold js_or in *. destruct a as [v|]; [|done].
  destruct (truthy (Some v)) eqn:Ev; [congruence|done].
Qed.

Lemma backfill_gives_settled game game' :
  backfill_playtime game = Normal game' → settled_record game'.
Proof.
  intros [(l & _ & ->)|(r & _ & ->)]%backfill_playtime_inv.
  - left. by eexists.
  - right. eexists _, _. split; [done|]. rewrite lookup_insert_eq.
    split; [done|]. apply js_or_settled.
Qed.

Lemma backfill_of_settled game :
  settled_record game → backfill_playtime game = Normal game.
Proof.
  intros [(l & ->)|(r & pt & -> & Hpt & Hs)]; [done|].
  unfold backfill_playtime, mbind, completion_bind. simpl. rewrite Hpt.
  do 2 f_equal. apply insert_id. rewrite Hpt. f_equal.
  unfold js_or. destruct Hs as [->| ->]; done.
Qed.

Lemma mapM_backfill_gives_settled games :
  ∀ games', mapM backfill_playtime games = Normal games' →
    Forall settled_record games'.
Proof.
  intros games' H%mapM_backfill_Forall2.
  induction H as [|x y xs ys Hxy _ IH]; constructor; [|done].
  by eapply backfill_gives_settled.
Qed.

Lemma mapM_backfill_of_settled games :
  Forall settled_record games → mapM backfill_playtime games = Normal games.
Proof.
  induction 1 as [|game rest Hg _ IH]; [done|]. simpl.
  rewrite (backfill_of_settled _ Hg). simpl. by rewrite IH.
Qed.

(** Every element of the library a load returns is an array or an object
    that has a playtime, and that playtime is truthy or the number 0:
    no record comes back from a load without a playtime, or with [null],
    [false] or the empty string for one. *)
Theorem loadProfile_playtime_settled w :
  ∃ profile,
    result_of (loadProfile w) = Normal profile
    ∧ Forall settled_record (library_of profile).
Proof.
  destruct (loadProfile_outcome w)
    as [Hdef|(m&g&u&g'&u'&Hd&Hlib&Hu&Ht&Hg&Hr&Hown)].
  { rewrite Hdef. exists defaultProfile. split; [done|]. constructor. }
  rewrite (loadProfile_success w m g u g' u' Hd Hlib Hu Ht Hg Hr Hown).
  eexists. split; [reflexivity|].
  unfold library_of. simpl. lookup_fields.
  by eapply mapM_backfill_gives_settled.
Qed.

Lemma mapM_backfill_throws games :
  Exists (λ game, not_an_object game = true) games →
  ∃ e, mapM backfill_playtime games = Throw e.
Proof.
  induction games as [|game rest IH]; intros H; [by inversion H|].
  simpl. destruct (backfill_playtime game) as [game'|e] eqn:Hg;
    [|by eexists].
  inversion H as [? ? Hbad|? ? Hrest]; subst.
  - exfalso. by destruct game.
  - destruct (IH Hrest) as [e ->]. by eexists.
Qed.

(** One element of the library that is [null] or a primitive value is
    enough for the whole file to be set aside: the load answers with the
    default profile, keeps nothing of the file's library or user, and
    leaves the table alone. *)
Theorem loadProfile_bad_element_discards_file w m games :
  disk w = Parsed (JObj m) →
  m !! "library" = Some (JArr games) →
  Exists (λ game, not_an_object game = true) games →
  loadProfile w = (Normal defaultProfile, w, []).
Proof.
  intros Hd Hlib Hbad.
  destruct (loadProfile_outcome w)
    as [Hdef|(m'&g&u&g'&u'&Hd'&Hlib'&_&_&Hg&_)]; [done|].
  rewrite Hd in Hd'. injection Hd' as <-.
  rewrite Hlib in Hlib'. injection Hlib' as <-.
  destruct (mapM_backfill_throws games Hbad) as [e He]. congruence.
Qed.

Lemma loadProfile_bad_element_discards_file_witness :
  (disk MoreSamples.holed_world = Parsed MoreSamples.holed_file
   ∧ peek MoreSamples.holed_file "library"
     = Some (JArr [ Samples.fresh_record; JNull ])
   ∧ Exists (λ game, not_an_object game = true)
       [ Samples.fresh_record; JNull ])
  ∧ loadProfile MoreSamples.holed_world
    = (Normal defaultProfile, MoreSamples.holed_world, []).
Proof.
  assert (Hlib : peek MoreSamples.holed_file "library"
                 = Some (JArr [ Samples.fresh_record; JNull ]))
    by (vm_compute; reflexivity).
  assert (Hbad : Exists (λ game, not_an_object game = true)
                   [ Samples.fresh_record; JNull ]).
  { apply Exists_cons_tl, Exists_cons_hd. reflexivity. }
  split; [exact (conj eq_refl (conj Hlib Hbad))|].
  exact (loadProfile_bad_element_discards_file MoreSamples.holed_world _ _
           eq_refl Hlib Hbad).
Defined.

(** An installed path keyed [hasOwnProperty] in the file makes every load
    of that file answer with the default profile and merge nothing: the
    own property shadows the method the merge loop calls. *)
Theorem loadProfile_shadowed_method_discards_file w m entries :
  disk w = Parsed (JObj m) →
  m !! "extractionPaths" = Some (JObj entries) →
  is_Some (entries !! "hasOwnProperty") →
  loadProfile w = (Normal defaultProfile, w, []).
Proof.
  intros Hd He [x Hx].
  destruct (loadProfile_outcome w)
    as [Hdef|(m'&g&u&g'&u'&Hd'&_&_&_&_&_&Hown)]; [done|].
  rewrite Hd in Hd'. injection Hd' as <-.
  rewrite He in Hown. simpl in Hown. congruence.
Qed.

Lemma loadProfile_shadowed_method_discards_file_witness :
  (disk MoreSamples.shadowing_world = Parsed MoreSamples.shadowing_file
   ∧ peek MoreSamples.shadowing_file "extractionPaths"
     = Some (JObj (map_of [ ("hasOwnProperty", Samples.installed_record) ]))
   ∧ is_Some (map_of [ ("hasOwnProperty", Samples.installed_record) ]
                !! "hasOwnProperty"))
  ∧ loadProfile MoreSamples.shadowing_world
    = (Normal defaultProfile, MoreSamples.shadowing_world, []).
Proof.
  assert (He : peek MoreSamples.shadowing_file "extractionPaths"
               = Some (JObj (map_of
                   [ ("hasOwnProperty", Samples.installed_record) ])))
    by (vm_compute; reflexivity).
  assert (Hs : is_Some (map_of [ ("hasOwnProperty", Samples.installed_record) ]
                          !! "hasOwnProperty")).
  { exists Samples.installed_record. vm_compute. reflexivity. }
  split; [exact (conj eq_refl (conj He Hs))|].
  exact (loadProfile_shadowed_method_discards_file
           MoreSamples.shadowing_world _ _ eq_refl He Hs).
Defined.

Lemma rebuild_user_idem u u' :
  rebuild_user u = Normal u' →
  rebuild_user u' = Normal u' ∧ typeof_object (Some u') = true.
Proof.
  intros ->%rebuild_user_inv. split; [|done].
  unfold rebuild_user, mbind, completion_bind, map_of. simpl.
  lookup_fields. rewrite !js_or_idem.
  by destruct (peek u "expositors") as [[|b|n|s|l|o]|].
Qed.

(** Loading a file that holds a profile as a load leaves it, with a table
    of installed paths: the profile comes back as it is. *)
Lemma load_of_settled w M G U T' :
  disk w = Parsed (JObj M) →
  M !! "library" = Some (JArr G) →
  Forall settled_record G →
  M !! "user" = Some U →
  rebuild_user U = Normal U →
  typeof_object (Some U) = true →
  M !! "extractionPaths" = Some (JObj T') →
  T' !! "hasOwnProperty" = None →
  loadProfile w
  = (Normal (JObj M), with_extractionPaths (T' ∪ extractionPaths w) w,
     replicate (windows w) (ProfileLoaded G)).
Proof.
  intros Hd Hlib HG Hu Hr Ht Hep Hown.
  rewrite (loadProfile_success w M G U G U Hd Hlib Hu Ht
             (mapM_backfill_of_settled G HG) Hr);
    [|by rewrite Hep].
  rewrite Hep. simpl.
  rewrite (insert_id M "library") by done. by rewrite insert_id.
Qed.

(** Normalisation is idempotent on every file that loads to the end,
    well formed or not: when what such a load returned is saved and
    loaded again, the second load returns the very profile of the first,
    with [extractionPaths] set to the table, and the table stays as the
    first load left it. *)
Theorem load_save_load_any w v profile :
  disk w = Parsed v →
  ¬ structurally_invalid v →
  result_of (loadProfile_try w) = Normal profile →
  writable w = true →
  (persisted_entries (disk w) ∪ extractionPaths w) !! "hasOwnProperty" = None →
  let w1 := world_of (loadProfile w) in
  let w2 := world_of (saveProfile profile w1) in
  result_of (loadProfile w) = Normal profile
  ∧ result_of (loadProfile w2) = Normal (with_paths (extractionPaths w1) profile)
  ∧ extractionPaths (world_of (loadProfile w2)) = extractionPaths w1.
Proof.
  intros Hd Hv Htry Hw Hown w1 w2.
  destruct (structurally_valid_inv v Hv) as (m&g&u&->&Hlib&Hu&Ht).
  pose proof (loadProfile_try_normal w profile Htry) as Heq.
  rewrite (loadProfile_try_valid w m g u Hd Hlib Hu Ht) in Htry.
  rewrite load_validated_run in Htry.
  destruct (mapM backfill_playtime g) as [g'|e] eqn:Hg; [|done].
  destruct (rebuild_user u) as [u'|e] eqn:Hr; [|done].
  rewrite merge_extractionPaths_run in Htry.
  assert (HownE : entries_of (m !! "extractionPaths") !! "hasOwnProperty"
                  = None).
  { rewrite Hd in Hown. simpl in Hown.
    by apply lookup_union_None in Hown as [? _]. }
  assert (Hload := loadProfile_success w m g u g' u' Hd Hlib Hu Ht Hg Hr HownE).
  assert (Hp : profile = JObj (<["user" := u']> (<["library" := JArr g']> m))).
  { destruct (m !! "extractionPaths") as [[|b|n|s|l|entries]|];
      simpl in *; try (by injection Htry as <-).
    rewrite HownE in Htry. by injection Htry as <-. }
  subst profile.
  set (T1 := entries_of (m !! "extractionPaths") ∪ extractionPaths w) in *.
  assert (Hw1 : w1 = with_extractionPaths T1 w) by (unfold w1; by rewrite Hload).
  assert (Hw2 : w2 = with_disk
                  (Parsed (JObj (<["extractionPaths" := JObj T1]>
                     (<["user" := u']> (<["library" := JArr g']> m))))) w1).
  { unfold w2. rewrite saveProfile_object_world; rewrite Hw1; done. }
  destruct (rebuild_user_idem u u' Hr) as [Hr' Ht'].
  assert (Hload2 := load_of_settled w2
            (<["extractionPaths" := JObj T1]>
               (<["user" := u']> (<["library" := JArr g']> m)))
            g' u' T1).
  rewrite Hw2 in Hload2 at 1. simpl in Hload2.
  specialize (Hload2 eq_refl).
  rewrite !lookup_insert_ne in Hload2 by done.
  rewrite !lookup_insert_eq in Hload2.
  rewrite lookup_insert_ne, lookup_insert_eq in Hload2 by done.
  specialize (Hload2 eq_refl (mapM_backfill_gives_settled g g' Hg) eq_refl
                Hr' Ht' eq_refl).
  rewrite Hd in Hown. simpl in Hown. specialize (Hload2 Hown).
  rewrite Hload2, Hload. simpl. split; [done|]. split; [by rewrite Hw1|].
  rewrite Hw2, Hw1. simpl. apply (idemp_L (∪)).
Qed.

Lemma load_save_load_any_witness :
  (disk MoreSamples.tagged_world = Parsed MoreSamples.tagged_file
   ∧ ¬ structurally_invalid MoreSamples.tagged_file
   ∧ result_of (loadProfile_try MoreSamples.tagged_world)
     = Normal MoreSamples.tagged_file_loaded
   ∧ writable MoreSamples.tagged_world = true
   ∧ (persisted_entries (disk MoreSamples.tagged_world)
        ∪ extractionPaths MoreSamples.tagged_world) !! "hasOwnProperty" = None)
  ∧ result_of
      (loadProfile
         (world_of (saveProfile MoreSamples.tagged_file_loaded
                      (world_of (loadProfile MoreSamples.tagged_world)))))
    = Normal (with_paths
                (extractionPaths (world_of (loadProfile MoreSamples.tagged_world)))
                MoreSamples.tagged_file_loaded).
Proof.
  assert (Hv : ¬ structurally_invalid MoreSamples.tagged_file).
  { intros [H|[H|H]]; vm_compute in H; discriminate. }
  assert (Htry : result_of (loadProfile_try MoreSamples.tagged_world)
                 = Normal MoreSamples.tagged_file_loaded)
    by (vm_compute; reflexivity).
  assert (Hown : (persisted_entries (disk MoreSamples.tagged_world)
                    ∪ extractionPaths MoreSamples.tagged_world)
                   !! "hasOwnProperty" = None) by (vm_compute; reflexivity).
  split; [exact (conj eq_refl (conj Hv (conj Htry (conj eq_refl Hown))))|].
  exact (proj1 (proj2 (load_save_load_any MoreSamples.tagged_world
                         MoreSamples.tagged_file MoreSamples.tagged_file_loaded
                         eq_refl Hv Htry eq_refl Hown))).
Defined.

(** The shape of what a load returns, for the handlers that read the
    library. *)
Lemma loadProfile_playtime_settled_aux w :
  ∃ pm games w1 sent,
    loadProfile w = (Normal (JObj pm), w1, sent)
    ∧ pm !! "library" = Some (JArr games)
    ∧ Forall settled_record games.
Proof.
  destruct (loadProfile_outcome w)
    as [Hdef|(m&g&u&g'&u'&Hd&Hlib&Hu&Ht&Hg&Hr&Hown)].
  { rewrite Hdef. eexists _, [], _, _. split; [reflexivity|].
    split; [vm_compute; reflexivity|constructor]. }
  rewrite (loadProfile_success w m g u g' u' Hd Hlib Hu Ht Hg Hr Hown).
  eexists _, g', _, _. split; [reflexivity|].
  split; [by lookup_fields|]. by eapply mapM_backfill_gives_settled.
Qed.

End ProfileMore.

Section HandlersMore.
Import Js Ipc ProfileStore Launch Reading Handlers Notions.

Lemma first_match_unique gameId games i r i' r' :
  first_match gameId games i r → first_match gameId games i' r' →
  i = i' ∧ r = r'.
Proof.
  intros (Hi & Hid & Hfirst) (Hi' & Hid' & Hfirst').
  assert (i = i') as <-.
  { destruct (Nat.lt_trichotomy i i') as [Hlt|[->|Hlt]]; [|done|].
    - exfalso. by eapply (Hfirst' i (JObj r)).
    - exfalso. by eapply (Hfirst i' (JObj r')). }
  split; [done|]. congruence.
Qed.

Lemma find_game_total gameId games :
  Forall settled_record games →
  ∃ found, find_game gameId games = Normal found
           ∧ match found with
             | Some game => ∃ i r, game = JObj r ∧ first_match gameId games i r
             | None => no_match gameId games
             end.
Proof.
  induction 1 as [|game rest Hgame _ (found & Hfound & Hspec)].
  { exists None. split; [done|]. by intros g ?%elem_of_nil. }
  simpl.
  assert (Hget : get_prop game "id" = Normal (peek game "id")).
  { by destruct Hgame as [(l & ->)|(r & pt & -> & _)]. }
  rewrite Hget. simpl.
  destruct (strict_equal_string (peek game "id") gameId) eqn:Heq.
  - exists (Some game). split; [done|].
    destruct (peek game "id") as [[|b|n|s|l|o]|] eqn:Hid; try done.
    simpl in Heq. apply String.eqb_eq in Heq as ->.
    destruct game as [|b|n|s|l|r]; try done.
    exists 0%nat, r. split; [done|]. split; [done|]. split; [done|].
    intros j g Hj. lia.
  - rewrite Hfound.
    assert (Hne : peek game "id" ≠ Some (JStr gameId)).
    { intros Hid. rewrite Hid in Heq. simpl in Heq.
      by rewrite String.eqb_refl in Heq. }
    exists found. split; [done|].
    destruct found as [g|].
    + destruct Hspec as (i & r & -> & Hi & Hid & Hbefore).
      exists (S i), r. split; [done|]. split; [done|]. split; [done|].
      intros [|j] g Hj; simpl.
      * by intros [= <-].
      * apply Hbefore. lia.
    + intros g [->|Hin]%elem_of_cons; [done|by apply Hspec].
Qed.

Lemma get_game_playtime_spec gameId w :
  ∃ profile v,
    result_of (loadProfile w) = Normal profile
    ∧ get_game_playtime gameId w
      = (Normal v, world_of (loadProfile w), sent_of (loadProfile w))
    ∧ (no_match gameId (library_of profile) → v = JNum 0)
    ∧ (∀ i r playtime,
         first_match gameId (library_of profile) i r →
         r !! "playtime" = Some playtime → v = playtime).
Proof.
  destruct (loadProfile_playtime_settled_aux w)
    as (pm & games & w1 & sent1 & Hload & Hlib & Hgames).
  destruct (find_game_total gameId games Hgames) as (found & Hfound & Hspec).
  assert (Hlibrary : library_of (JObj pm) = games).
  { unfold library_of. simpl. by rewrite Hlib. }
  unfold get_game_playtime.
  unfold mbind at 1, M_bind at 1. rewrite Hload.
  unfold mbind at 1, M_bind at 1, lift at 1. simpl get_prop. rewrite Hlib.
  unfold mbind at 1, M_bind at 1, lift at 1. rewrite Hfound.
  exists (JObj pm). rewrite Hlibrary.
  destruct found as [game|].
  - destruct Hspec as (i & r & -> & Hfirst).
    assert (Hsettled : ∃ pt, r !! "playtime" = Some pt ∧ settled_playtime pt).
    { destruct Hfirst as (Hi & _ & _).
      apply list_elem_of_lookup_2 in Hi.
      rewrite ->Forall_forall in Hgames. apply Hgames in Hi.
      destruct Hi as [(l & Hl)|(r0 & pt & [= <-] & Hpt & Hs)]; [done|].
      by exists pt. }
    destruct Hsettled as (pt & Hpt & Hs).
    exists pt. split; [done|]. split.
    { simpl. unfold mbind, M_bind, lift. simpl. rewrite Hpt.
      rewrite !app_nil_r. do 3 f_equal.
      unfold js_or. by destruct Hs as [->| ->]. }
    split.
    + intros Hnone. exfalso. destruct Hfirst as (Hi & Hid & _).
      eapply (Hnone (JObj r)); [by eapply list_elem_of_lookup_2|done].
    + intros i' r' pt' Hfirst' Hpt'.
      destruct (first_match_unique _ _ _ _ _ _ Hfirst Hfirst') as [_ <-].
      congruence.
  - exists (JNum 0). split; [done|]. split.
    { simpl. by rewrite !app_nil_r. }
    split; [done|].
    intros i r pt (Hi & Hid & _) _. exfalso.
    eapply (Hspec (JObj r)); [by eapply list_elem_of_lookup_2|done].
Qed.

(** [get-game-playtime] never rejects.  It does what a load does to the
    state and to the windows, and it answers with the playtime of the
    first record of the loaded library whose id is the item's, or with 0
    when no record has that id (so also when the file is unusable). *)
Theorem get_game_playtime_reads_first_match gameId w :
  ∃ profile v,
    result_of (loadProfile w) = Normal profile
    ∧ get_game_playtime gameId w
      = (Normal v, world_of (loadProfile w), sent_of (loadProfile w))
    ∧ (no_match gameId (library_of profile) → v = JNum 0)
    ∧ (∀ i r playtime,
         first_match gameId (library_of profile) i r →
         r !! "playtime" = Some playtime → v = playtime).
Proof. apply get_game_playtime_spec. Qed.

(** [handleGetDiskSpace] never fails its caller: it answers [null] when
    the dependency rejects or resolves with anything but an object whose
    [free] and [size] are numbers, and otherwise with those two numbers,
    the size under the name [total]. *)
Theorem handleGetDiskSpace_answer platform checkDiskSpace :
  (∀ d (free size : Z),
     checkDiskSpace (getDriveRoot platform) = Normal (Some (JObj d)) →
     d !! "free" = Some (JNum free) → d !! "size" = Some (JNum size) →
     handleGetDiskSpace platform checkDiskSpace
     = JObj (map_of [ ("free", JNum free); ("total", JNum size) ]))
  ∧ (handleGetDiskSpace platform checkDiskSpace ≠ JNull →
     ∃ d (free size : Z),
       checkDiskSpace (getDriveRoot platform) = Normal (Some (JObj d))
       ∧ d !! "free" = Some (JNum free) ∧ d !! "size" = Some (JNum size)).
Proof.
  unfold handleGetDiskSpace. split.
  - intros d free size -> Hf Hs. simpl. by rewrite Hf, Hs.
  - destruct (checkDiskSpace (getDriveRoot platform))
      as [[[|b|n|s|l|d]|]|e]; simpl; try done.
    + by destruct b.
    + by destruct (n =? 0).
    + by destruct (String.eqb s "").
    + destruct (d !! "free") as [[|b|n|s|l|o]|] eqn:Hf; simpl; try done.
      destruct (d !! "size") as [[|b'|n'|s'|l'|o']|] eqn:Hs; simpl; try done.
      intros _. by exists d, n, n'.
Qed.

Lemma handleGetDiskSpace_answer_witness :
  let report := map_of [ ("diskPath", JStr "/"); ("free", JNum 1024);
                         ("size", JNum 4096) ] in
  ((λ _ : string, Normal (Some (JObj report))) (getDriveRoot "linux")
   = Normal (Some (JObj report))
   ∧ report !! "free" = Some (JNum 1024)
   ∧ report !! "size" = Some (JNum 4096))
  ∧ handleGetDiskSpace "linux" (λ _, Normal (Some (JObj report)))
    = JObj (map_of [ ("free", JNum 1024); ("total", JNum 4096) ]).
Proof.
  intros report.
  assert (Hf : report !! "free" = Some (JNum 1024)) by (vm_compute; reflexivity).
  assert (Hs : report !! "size" = Some (JNum 4096)) by (vm_compute; reflexivity).
  split; [exact (conj eq_refl (conj Hf Hs))|].
  exact (proj1 (handleGetDiskSpace_answer "linux"
                  (λ _, Normal (Some (JObj report))))
           report 1024 4096 eq_refl Hf Hs).
Defined.

(** The two scripts agree on their channels, but for one: every channel
    the preload script invokes has a handler in the main process, every
    channel it sends on has a listener there, and of the messages the
    main process sends the renderer can receive all except
    [profile-loaded], for which the preload script installs nothing. *)
Theorem channels_agree_except_profile_loaded :
  Forall (λ c, c ∈ handled_channels) Preload.invoked_channels
  ∧ Forall (λ c, c ∈ listened_channels) Preload.sent_channels
  ∧ ∀ m, channel_of m ∈ Preload.received_channels
         ↔ channel_of m ≠ "profile-loaded".
Proof.
  split; [apply (bool_decide_unpack _); vm_compute; exact I|].
  split; [apply (bool_decide_unpack _); vm_compute; exact I|].
  intros m. destruct m; simpl; split; intros H; try done;
    try (apply (bool_decide_unpack _); vm_compute; exact I).
  exfalso. revert H. apply (bool_decide_unpack _). vm_compute. exact I.
Qed.

End HandlersMore.

Section LaunchMore.
Import Js Ipc ProfileStore Transfer Launch Reading Handlers Notions.

Lemma launchable_inv w gameId :
  launchable w gameId = true →
  ∃ data execTarget,
    extractionPaths w !! gameId = Some (JObj data)
    ∧ data !! "execTarget" = Some (JStr execTarget)
    ∧ execTarget ≠ "".
Proof.
  unfold launchable.
  destruct (extractionPaths w !! gameId) as [[|b|n|s|l|data]|]; try done.
  destruct (data !! "execTarget") as [[|b|n|s|l|o]|] eqn:He; try done.
  intros H. exists data, s. split; [done|]. split; [done|].
  intros ->. done.
Qed.



(** A target of separators only: its base name is empty, [execFile]
    throws on the empty file name, and the caller of [launch-game] gets
    a rejection where every other launch gets an answer. *)
Example launch_of_root_is_rejected :
  let w := World Absent true
             (map_of [ ("game", JObj (map_of [ ("execTarget", JStr "/") ])) ])
             1 in
  launchable w "game" = true
  ∧ launch_game "game" 1000 6499
      (Refused "TypeError: The argument file cannot be empty") w
    = (Normal (Outcome
         (RejectedWith "TypeError: The argument file cannot be empty") []),
       w, []).
Proof. vm_compute. by split. Qed.

(** When the profile file is unusable (absent, unreadable, blank,
    unparsable or structurally invalid) and can be written, the launch of
    an installed item replaces it by the default profile with the table
    of installed paths: what the file held is lost. *)
Theorem launch_overwrites_unusable_file gameId startTime endTime error w :
  launchable w gameId = true →
  writable w = true →
  unusable (disk w) →
  disk (world_of (launch_game gameId startTime endTime (Ended error) w))
  = Parsed (with_paths (extractionPaths w) defaultProfile).
Proof.
  intros Hl Hw Hu.
  destruct (launchable_inv w gameId Hl) as (data & x & Hd & Hx & Hne).
  rewrite (launch_game_found _ _ _ _ _ _ _ Hd Hx Hne).
  unfold run_callback.
  rewrite (on_exit_run gameId startTime endTime error w _ [] w [] None
             (loadProfile_unusable w Hu)); try done.
  simpl. by rewrite Hw.
Qed.

Lemma launch_overwrites_unusable_file_witness :
  (launchable MoreSamples.corrupt_world "terraria-1" = true
   ∧ writable MoreSamples.corrupt_world = true
   ∧ unusable (disk MoreSamples.corrupt_world))
  ∧ disk (world_of (launch_game "terraria-1" 0 1000 (Ended None)
                      MoreSamples.corrupt_world))
    = Parsed (with_paths (extractionPaths MoreSamples.corrupt_world)
                defaultProfile).
Proof.
  split; [exact (conj eq_refl (conj eq_refl I))|].
  exact (launch_overwrites_unusable_file "terraria-1" 0 1000 None
           MoreSamples.corrupt_world eq_refl eq_refl I).
Defined.










(** The two sessions of 5 s and 7 s, evaluated. *)
Example playtime_5_then_7 :
  result_of
    (get_game_playtime "terraria-1"
       (world_of (launch_game "terraria-1" 20000 27000 (Ended None)
          (world_of (launch_game "terraria-1" 0 5000 (Ended None)
                       Samples.complete_world)))))
  = Normal (JNum 24).
Proof. vm_compute. reflexivity. Qed.

End LaunchMore.

Section ExtractionMore.
Import Js Ipc Locator Progress ProfileStore Extraction Transfer Reading Notions.

(** The [close] listener as a function of the state: it rejects and
    changes nothing, or resolves after entering a record that does not
    depend on the state. *)
Lemma on_close_run extractionDir gameId env code :
  (∃ text, ∀ w, on_close extractionDir gameId env code w
                = (Normal (Rejected text), w, []))
  ∨ (∃ record, ∀ w,
       on_close extractionDir gameId env code w
       = (Normal Resolved,
          with_extractionPaths (<[gameId := record]> (extractionPaths w)) w,
          if destroyed_at_end env then []
          else [DecompressionComplete gameId])).
Proof.
  unfold on_close.
  destruct code as [[|c|c]|]; try (left; by eexists).
  unfold try_catch.
  destruct (extracted env) as [|[|file files]] eqn:Hex;
    try (left; by eexists).
  destruct (findExecutable extractionDir (Entries (file :: files))
              "Terraria.exe") as [execFile|] eqn:Hfind;
    [|left; by eexists].
  right. eexists. intros w.
  unfold mbind, M_bind, get_world, put_world. simpl.
  by destruct (destroyed_at_end env).
Qed.

(** One extraction as a function of the state. *)
Lemma handleExtraction_run downloadPath gameId env :
  (∃ text sent,
     (∀ w, handleExtraction downloadPath gameId env w
           = (Normal (Rejected text), w, sent))
     ∧ (sent = []
        ∨ sent = DecompressionStart gameId
                   :: extraction_progress gameId (stdout_chunks env)))
  ∨ (∃ record, ∀ w,
       handleExtraction downloadPath gameId env w
       = (Normal Resolved,
          with_extractionPaths (<[gameId := record]> (extractionPaths w)) w,
          DecompressionStart gameId
            :: extraction_progress gameId (stdout_chunks env)
            ++ (if destroyed_at_end env then []
                else [DecompressionComplete gameId]))).
Proof.
  unfold handleExtraction, try_catch, mbind, M_bind, lift, mret, M_ret,
    send_unguarded, send, send_each, throw.
  destruct (download_listing env) as [archives|e] eqn:Hls;
    [|left; eexists _, _; split; [reflexivity|by left]].
  destruct (List.find _ archives) as [rarFile|] eqn:Hrar;
    [|left; eexists _, _; split; [reflexivity|by left]].
  destruct (extractionDir_exists env);
    [|destruct (mkdir_result env) as [[]|e];
      [|left; eexists _, _; split; [reflexivity|by left]]].
  all: destruct (destroyed_at_start env);
    [left; eexists _, _; split; [reflexivity|by left]|].
  all: destruct (decoder_end env) as [text errno|code] eqn:Hend.
  all: try (left; eexists _, _; split;
            [intros w; simpl; rewrite !app_nil_r; reflexivity|by right]).
  all: destruct (on_close_run (path_join downloadPath "extracted")
                   gameId env code) as [[text Hc]|[record Hc]].
  all: try (left; eexists _, _; split;
            [intros w; rewrite Hc; simpl; rewrite !app_nil_r; reflexivity
            |by right]).
  all: right; exists record; intros w; rewrite Hc; simpl; reflexivity.
Qed.

(** The messages of an extraction.  A rejected extraction has sent
    nothing at all, or the start message followed by the progress
    messages; a resolved one has sent the start message, the progress
    messages and then, unless the window is gone, the completion message.
    The start message comes first, the completion message last and only
    on success. *)
Theorem handleExtraction_messages downloadPath gameId env w :
  let run := handleExtraction downloadPath gameId env w in
  (∃ text, result_of run = Normal (Rejected text)
           ∧ (sent_of run = []
              ∨ sent_of run
                = DecompressionStart gameId
                    :: extraction_progress gameId (stdout_chunks env)))
  ∨ (result_of run = Normal Resolved
     ∧ sent_of run
       = DecompressionStart gameId
           :: extraction_progress gameId (stdout_chunks env)
           ++ (if destroyed_at_end env then []
               else [DecompressionComplete gameId])).
Proof.
  intros run. unfold run.
  destruct (handleExtraction_run downloadPath gameId env)
    as [(text & sent & Hrun & Hsent)|(record & Hrun)]; rewrite Hrun.
  - left. by exists text.
  - by right.
Qed.

(** Extracting again in the same environment changes nothing more: the
    second run settles as the first, sends the same messages and leaves
    the state the first run left. *)
Theorem handleExtraction_again downloadPath gameId env w :
  let run := handleExtraction downloadPath gameId env w in
  handleExtraction downloadPath gameId env (world_of run)
  = (result_of run, world_of run, sent_of run).
Proof.
  intros run. unfold run.
  destruct (handleExtraction_run downloadPath gameId env)
    as [(text & sent & Hrun & _)|(record & Hrun)].
  - rewrite (Hrun w). unfold world_of, result_of, sent_of. cbn [fst snd].
    by rewrite Hrun.
  - rewrite (Hrun w). unfold world_of, result_of, sent_of. cbn [fst snd].
    rewrite Hrun. unfold with_extractionPaths. simpl.
    by rewrite insert_insert_eq.
Qed.

End ExtractionMore.

Section TransferMore.
Import Js Ipc Locator Progress ProfileStore Extraction Transfer Reading Notions.

(** The handler on a valid item id, by the way the transfer ends. *)
Lemma start_torrent_download_run downloads id ticks ending w :
  id ≠ "" →
  ∃ o w' sent,
    start_torrent_download downloads (Some (JStr id))
      {| download_events := ticks; transfer_end := ending |} w
    = (Normal o, w', sent)
    ∧ disk w' = disk w ∧ writable w' = writable w ∧ windows w' = windows w
    ∧ (∀ k, k ≠ id → extractionPaths w' !! k = extractionPaths w !! k)
    ∧ ((∃ env, ending = TorrentDone None env
               ∧ result_of (handleExtraction (path_join downloads id) id env w)
                 = Normal Resolved
               ∧ o = Outcome (Fulfilled
                       (Reply true "Download and extraction completed")) [])
       ∨ ((∀ env, ending = TorrentDone None env →
                  result_of (handleExtraction (path_join downloads id) id env w)
                  ≠ Normal Resolved)
          ∧ ∃ e, o = Outcome Pending [e])).
Proof.
  intros Hid.
  unfold start_torrent_download. simpl.
  destruct (String.eqb_spec id ""); [done|]. simpl.
  unfold mbind at 1, M_bind at 1, send_each at 1, run_callback.
  destruct ending as [[removeError|] env|text]; simpl.
  - eexists _, _, _. split; [reflexivity|]. repeat split; try done.
    right. split; [done|by eexists].
  - unfold mbind at 1, M_bind at 1.
    destruct (handleExtraction_run (path_join downloads id) id env)
      as [(text & sent & Hrun & _)|(record & Hrun)]; rewrite !Hrun.
    + unfold mbind, M_bind, send_unguarded, send, throw, lift. simpl.
      destruct (destroyed_at_end env); simpl;
        (eexists _, _, _; split; [reflexivity|]; repeat split; try done;
         right; split;
         [intros env0 [= <-]; rewrite Hrun; discriminate|by eexists]).
    + simpl. eexists _, _, _. split; [reflexivity|].
      split; [done|]. split; [done|]. split; [done|]. split.
      { intros k Hk. simpl. by rewrite lookup_insert_ne. }
      left. exists env. by rewrite Hrun.
  - eexists _, _, _. split; [reflexivity|]. repeat split; try done.
    right. split; [done|by eexists].
Qed.

(** A download answers its caller only with success: for a valid item
    id the promise is fulfilled, with the success reply, exactly when the
    transfer finishes, its deregistration succeeds and the extraction
    resolves; in every other case (transfer error, failed deregistration,
    failed extraction) the promise stays pending and one error has been
    thrown out of a callback. *)
Theorem download_answers_only_success downloads id ticks ending w :
  id ≠ "" →
  let run := start_torrent_download downloads (Some (JStr id))
               {| download_events := ticks; transfer_end := ending |} w in
  (∃ env, ending = TorrentDone None env
          ∧ result_of (handleExtraction (path_join downloads id) id env w)
            = Normal Resolved
          ∧ result_of run
            = Normal (Outcome (Fulfilled
                        (Reply true "Download and extraction completed")) []))
  ∨ ((∀ env, ending = TorrentDone None env →
             result_of (handleExtraction (path_join downloads id) id env w)
             ≠ Normal Resolved)
     ∧ ∃ e, result_of run = Normal (Outcome Pending [e])).
Proof.
  intros Hid run. unfold run.
  destruct (start_torrent_download_run downloads id ticks ending w Hid)
    as (o & w' & sent & -> & _ & _ & _ & _ & [(env & He & Hres & ->)|(Hno & e & ->)]).
  - left. by exists env.
  - right. split; [done|]. by exists e.
Qed.

Lemma download_answers_only_success_witness :
  "terraria-1" ≠ ""
  ∧ ∃ e, result_of
           (start_torrent_download ["downloads"] (Some (JStr "terraria-1"))
              {| download_events := [];
                 transfer_end :=
                   TorrentDone None
                     {| download_listing := Normal ["notes.txt"];
                        extractionDir_exists := true;
                        mkdir_result := Normal ();
                        destroyed_at_start := false;
                        stdout_chunks := [];
                        decoder_end := Closed (Some 0);
                        extracted := Entries [];
                        destroyed_at_end := false |} |}
              Samples.absent_world)
         = Normal (Outcome Pending [e]).
Proof.
  assert (Hid : "terraria-1" ≠ "") by discriminate.
  split; [exact Hid|].
  destruct (download_answers_only_success ["downloads"] "terraria-1" []
              (TorrentDone None
                 {| download_listing := Normal ["notes.txt"];
                    extractionDir_exists := true;
                    mkdir_result := Normal ();
                    destroyed_at_start := false;
                    stdout_chunks := [];
                    decoder_end := Closed (Some 0);
                    extracted := Entries [];
                    destroyed_at_end := false |})
              Samples.absent_world Hid)
    as [(env & He & Hres & _)|[_ He]].
  - exfalso. injection He as <-. vm_compute in Hres. discriminate Hres.
  - exact He.
Defined.

(** A download never writes the profile file: whatever happens, the
    file, its permissions and the windows are as before, and in the table
    only the entry of the downloaded item can have changed.  The installed
    path of a finished download is in memory until some later save. *)
Theorem download_leaves_file_alone downloads id ticks ending w :
  id ≠ "" →
  let w' := world_of (start_torrent_download downloads (Some (JStr id))
                        {| download_events := ticks;
                           transfer_end := ending |} w) in
  disk w' = disk w ∧ writable w' = writable w ∧ windows w' = windows w
  ∧ ∀ k, k ≠ id → extractionPaths w' !! k = extractionPaths w !! k.
Proof.
  intros Hid w'. unfold w'.
  destruct (start_torrent_download_run downloads id ticks ending w Hid)
    as (o & w1 & sent & -> & Hd & Hw & Hn & Ht & _).
  by repeat split.
Qed.

Lemma download_leaves_file_alone_witness :
  "terraria-1" ≠ ""
  ∧ disk (world_of
            (start_torrent_download ["downloads"] (Some (JStr "terraria-1"))
               {| download_events := [];
                  transfer_end := TorrentError "tracker unreachable" |}
               Samples.complete_world))
    = disk Samples.complete_world.
Proof.
  assert (Hid : "terraria-1" ≠ "") by discriminate.
  split; [exact Hid|].
  exact (proj1 (download_leaves_file_alone ["downloads"] "terraria-1" []
                  (TorrentError "tracker unreachable")
                  Samples.complete_world Hid)).
Defined.

(** An item id that is missing, empty or not a string is refused at
    once: the answer is the failure [Invalid gameId], no transfer is
    started, the state is untouched and nothing is sent. *)
Theorem download_refuses_invalid_id downloads gameId run w :
  valid_gameId gameId = false →
  start_torrent_download downloads gameId run w
  = (Normal (Outcome (Fulfilled (Reply false "Invalid gameId")) []), w, []).
Proof.
  unfold valid_gameId, start_torrent_download.
  destruct gameId as [[|b|n|s|l|o]|]; try done.
  simpl. destruct (String.eqb s ""); done.
Qed.

Lemma download_refuses_invalid_id_witness :
  valid_gameId (Some (JNum 7)) = false
  ∧ start_torrent_download ["downloads"] (Some (JNum 7))
      {| download_events := []; transfer_end := TorrentError "nothing" |}
      Samples.absent_world
    = (Normal (Outcome (Fulfilled (Reply false "Invalid gameId")) []),
       Samples.absent_world, []).
Proof.
  split; [reflexivity|].
  exact (download_refuses_invalid_id ["downloads"] (Some (JNum 7)) _
           Samples.absent_world eq_refl).
Defined.

End TransferMore.
